(** * aCOSMIC.GW_calcs: gravitational-wave strain, SNR, PSD and foreground

    A shallow embedding of [src/aCOSMIC/GW_calcs.py] and the properties its
    specification states about it.

    ** Numeric model

    The Python module computes with IEEE doubles held in numpy arrays and
    pandas Series.  Here a double is idealised as a real number: rounding,
    overflow, infinities and NaN are outside the model.  [x / 0] is the
    Standard Library's total division; a fractional power of a negative
    base and the square root of a negative number (both NaN in numpy) are
    [0].  A property that states a value is to be read on inputs where
    numpy's value is finite.  Python integers are [Z].

    The strain computation is the one place where the module is fed inputs
    that leave the finite values (a zero period, a negative mass).  For it
    the module [ieee] below keeps the special values of a double, so that
    what these inputs give, an infinity or NaN, is stated as numpy computes
    it.  Rounding stays outside that model too: a finite value is an exact
    real, and where a property depends on rounding (the number of bin edges
    of [np.arange] when the quotient of its arguments rounds across an
    integer, the last digit of a closed form, underflow of a tiny product)
    it is read up to it.

    ** External collaborators

    [scipy.special.jv] (Bessel function of the first kind) and the callable
    returned by [lisa_sensitivity.lisa_root_psd()] are not part of the module:
    every definition that calls them takes them as the parameters [jv] and
    [lisa_root_psd].

    ** Arrays and tables

    A pandas Series or a one-dimensional numpy array is a [list]; a
    two-dimensional array is the list of its rows.  Arithmetic between Series
    of one index is pointwise.  Index assignment [a[ind] = v] is stdpp's list
    insert; reads [s.iloc[ind]] are positional.  A DataFrame with a fixed
    schema is the list of its rows, and the frame that [compute_foreground]
    receives is a record with the optional ['digits'] column it adds.

    ** Exceptions

    A call either returns a value or raises: [result A]. *)

From Stdlib Require Import Reals Lra Lia ZArith String Sorted.
From stdpp Require Import base decidable option list.

Open Scope R_scope.

(** ** Decidable comparisons on the reals *)

#[global] Instance Rlt_decision : RelDecision Rlt := Rlt_dec.
#[global] Instance Rle_decision : RelDecision Rle := Rle_dec.
#[global] Instance Req_decision : EqDecision R := Req_dec_T.

(** Settles every comparison of two numerals in the goal. *)
Ltac decide_numerals :=
  repeat match goal with
    | |- context [decide (?a <= ?b)] =>
        first [ rewrite (decide_True (P := a <= b)) by lra
              | rewrite (decide_False (P := a <= b)) by lra ]
    | |- context [decide (?a < ?b)] =>
        first [ rewrite (decide_True (P := a < b)) by lra
              | rewrite (decide_False (P := a < b)) by lra ]
    end.

(** ** Python exceptions and results *)

Inductive exn : Type :=
  | NameError (name : string)
  | ValueError
  | ZeroDivisionError
  | DomainError. (* the specification's error kind; no line of the module raises it *)

Inductive result (A : Type) : Type :=
  | Returned (a : A)
  | Raised (e : exn).

Arguments Returned {A} a.
Arguments Raised {A} e.

#[global] Instance result_ret : MRet result := fun A a => Returned a.

#[global] Instance result_bind : MBind result := fun A B k r =>
  match r with
  | Returned a => k a
  | Raised e => Raised e
  end.

(** ** The fragment of numpy and pandas the module uses *)

Module np.

(** [x ** y] with a float exponent [y > 0].  A negative base, NaN in
    numpy, is [0] here; [ieee.power] below keeps the NaN. *)
Definition power (x y : R) : R :=
  if decide (0 < x) then Rpower x y else 0.

Definition zeros (n : nat) : list R := replicate n 0.

Definition ones (n : nat) : list R := replicate n 1.

(** [sum] of a one-dimensional array. *)
Definition sum (xs : list R) : R := foldr Rplus 0 xs.

(** [math.ceil] on a real, through the Standard Library's [up]. *)
Definition ceil (x : R) : Z := (1 - up (- x))%Z.

(** [np.arange(start, stop, step)] with float arguments: the values
    [start + i*step] for [0 <= i < ceil((stop - start)/step)].  The count is
    the ceiling of the exact quotient; numpy takes the ceiling of the
    rounded quotient, which can be one more when that rounds across an
    integer. *)
Definition arange (start stop step : R) : list R :=
  (fun i : nat => start + INR i * step)
    <$> seq 0 (Z.to_nat (ceil ((stop - start) / step))).

(** [np.arange(a, b)] with integer arguments. *)
Definition arangeZ (a b : Z) : list Z := seqZ a (b - a).

(** [np.where(mask)[0]]: positions of the true entries, in order. *)
Fixpoint where_from (i : nat) (mask : list bool) : list nat :=
  match mask with
  | [] => []
  | b :: mask' =>
      if b then i :: where_from (S i) mask' else where_from (S i) mask'
  end.

Definition where_ (mask : list bool) : list nat := where_from 0 mask.

(** [a[ind] = vals] for index and value arrays of one length. *)
Definition put (a : list R) (ind : list nat) (vals : list R) : list R :=
  foldl (fun acc iv => <[iv.1 := iv.2]> acc) a (zip ind vals).

(** [a[ind] = vals] with numpy's broadcasting rule for the value array:
    equal lengths assign pairwise, a one-element value array is repeated,
    anything else is a ValueError (shape mismatch). *)
Definition put_broadcast (a : list R) (ind : list nat) (vals : list R)
  : result (list R) :=
  if decide (length vals = length ind) then Returned (put a ind vals)
  else match vals with
       | [v] => Returned (put a ind (replicate (length ind) v))
       | _ => Raised ValueError
       end.

(** [A.T] for a rectangular two-dimensional array with at least one row. *)
Definition transpose (A : list (list R)) : list (list R) :=
  match A with
  | [] => []
  | r :: _ => (fun j => (fun row => nth j row 0) <$> A) <$> seq 0 (length r)
  end.

(** [A.flatten()]: row-major. *)
Definition flatten (A : list (list R)) : list R := concat A.

(** [flat.reshape((r, c))]: a ValueError unless the sizes agree. *)
Definition reshape (flat : list R) (r c : nat) : result (list (list R)) :=
  if decide (length flat = (r * c)%nat)
  then Returned ((fun i => take c (drop (i * c) flat)) <$> seq 0 r)
  else Raised ValueError.

(** Elementwise operations on two-dimensional arrays of one shape. *)
Definition map2d (f : R -> R) (A : list (list R)) : list (list R) :=
  (fun row : list R => f <$> row) <$> A.

Definition zip2d (f : R -> R -> R) (A B : list (list R)) : list (list R) :=
  zip_with (zip_with f) A B.

(** [A.sum(axis=0)] for a two-dimensional array with at least one row. *)
Definition sum_axis0 (A : list (list R)) : list R :=
  sum <$> transpose A.

(** [np.digitize(xs, bins)] for increasing [bins], [right=False]: the index
    [i] with [bins[i-1] <= x < bins[i]], [0] below the first edge and
    [len(bins)] at or above the last. *)
Fixpoint searchsorted_right (bins : list R) (x : R) : nat :=
  match bins with
  | [] => 0
  | b :: bins' =>
      if decide (b <= x) then S (searchsorted_right bins' x) else 0%nat
  end.

Definition digitize (xs bins : list R) : list nat :=
  searchsorted_right bins <$> xs.

(** Python's [l[:stop]], also for a negative [stop]. *)
Definition slice_to {A : Type} (l : list A) (stop : Z) : list A :=
  if decide (stop < 0)%Z
  then take (Z.to_nat (Z.of_nat (length l) + stop)) l
  else take (Z.to_nat stop) l.

End np.

Module pd.

(** One group of [df.groupby(key).sum()]: keys are kept in increasing
    order and each key carries the sum of its values. *)
Fixpoint group_add (k : nat) (v : R) (acc : list (nat * R))
  : list (nat * R) :=
  match acc with
  | [] => [(k, v)]
  | (k', s) :: acc' =>
      if decide (k < k')%nat then (k, v) :: acc
      else if decide (k = k') then (k', s + v) :: acc'
      else (k', s) :: group_add k v acc'
  end.

(** [df[[value, key]].groupby(key).sum()[value]] as the list of
    (index label, sum) pairs of the resulting Series. *)
Definition groupby_sum (keys : list nat) (vals : list R)
  : list (nat * R) :=
  foldl (fun acc kv => group_add kv.1 kv.2 acc) [] (zip keys vals).

End pd.

(** ** Module constants *)

Definition G : R := 6.67384e-11.
Definition c : R := 2.99792458e8.
Definition parsec : R := 3.08567758e16.
Definition Msun : R := 1.9891e30.
Definition sec_in_year : R := 3.15569e7.

(** ** Closed-form helpers *)

(** [m_chirp(m1, m2)] on scalars. *)
Definition m_chirp (m1 m2 : R) : R :=
  np.power (m1 * m2) (3 / 5) / np.power (m1 + m2) (1 / 5).

(** [peak_gw_freq(m1, m2, ecc, porb)] on scalars. *)
Definition peak_gw_freq (m1 m2 ecc porb : R) : R :=
  let sep_m := np.power (G / (4 * PI ^ 2) * porb ^ 2 * (m1 + m2)) (1 / 3) in
  (np.power (G * (m1 + m2)) 0.5 / PI) * np.power (1 + ecc) 1.1954
  / np.power (sep_m * (1 - ecc) ^ 2) 1.5.

(** The strain of lines 166 and 240 on scalars:
    [8*G/c**2*(mChirp)/(dist)*(G/c**3*2*np.pi*(1/(porb))*mChirp)**(2./3.)],
    on finite values; what a zero period or distance gives is in
    [ieee.strain]. *)
Definition strain (mChirp dist porb : R) : R :=
  8 * G / c ^ 2 * mChirp / dist
  * np.power (G / c ^ 3 * 2 * PI * (1 / porb) * mChirp) (2 / 3).

(** Pointwise application to Series of one index. *)
Definition broadcast2 {A B C : Type} (f : A -> B -> C)
  (xs : list A) (ys : list B) : list C :=
  zip_with f xs ys.

Definition broadcast3 {A B C D : Type} (f : A -> B -> C -> D)
  (xs : list A) (ys : list B) (zs : list C) : list D :=
  zip_with (fun g z => g z) (zip_with f xs ys) zs.

Definition broadcast4 {A B C D E : Type} (f : A -> B -> C -> D -> E)
  (xs : list A) (ys : list B) (zs : list C) (ws : list D) : list E :=
  zip_with (fun g w => g w) (broadcast3 f xs ys zs) ws.

(** [s.iloc[ind]]: positional selection. *)
Definition iloc (s : list R) (ind : list nat) : list R :=
  (fun i => nth i s 0) <$> ind.

(** ** HarmonicWeights: [peters_gfac] *)

Section Bessel.

Variable jv : Z -> R -> R.

(** The expression appended for harmonic [n] (lines 115-121). *)
Definition g_fac_entry (n : Z) (ecc : R) : R :=
  let nR := IZR n in
  (nR ^ 4 / 32)
  * ((jv (n - 2) (nR * ecc) - 2 * ecc * jv (n - 1) (nR * ecc)
      + 2 / nR * jv n (nR * ecc) + 2 * ecc * jv (n + 1) (nR * ecc)
      - jv (n + 2) (nR * ecc)) ^ 2
     + (1 - ecc ^ 2)
       * (jv (n - 2) (nR * ecc) - 2 * jv n (nR * ecc)
          + jv (n + 2) (nR * ecc)) ^ 2
     + (4 / (3 * nR ^ 2)) * (jv n (nR * ecc)) ^ 2)
  / nR ^ 2.

(** [peters_gfac(ecc, n_harmonic)] for a scalar eccentricity. *)
Definition peters_gfac (ecc : R) (n_harmonic : Z) : list R :=
  (fun n => g_fac_entry n ecc) <$> np.arangeZ 1 n_harmonic.

(** [peters_gfac(ecc, n_harmonic)] for a Series of eccentricities: one row
    per harmonic, one column per source. *)
Definition peters_gfac_series (ecc : list R) (n_harmonic : Z)
  : list (list R) :=
  (fun n => g_fac_entry n <$> ecc) <$> np.arangeZ 1 n_harmonic.

(** The specification's formula for [g(n, ecc)], section 4.1. *)
Definition g_spec (n : Z) (eps : R) : R :=
  let J (k : Z) := jv k (IZR n * eps) in
  (IZR n ^ 4 / 32)
  * ((J (n - 2)%Z - 2 * eps * J (n - 1)%Z + (2 / IZR n) * J n
      + 2 * eps * J (n + 1)%Z - J (n + 2)%Z) ^ 2
     + (1 - eps ^ 2) * (J (n - 2)%Z - 2 * J n + J (n + 2)%Z) ^ 2
     + (4 / (3 * IZR n ^ 2)) * (J n) ^ 2)
  / IZR n ^ 2.

End Bessel.

(** ** Input catalog *)

(** One row of the input catalog: the five Series of a call hold the fields
    of the same sources in the same order. *)
Record Binary : Type := mkBinary {
  b_m1 : R;
  b_m2 : R;
  b_porb : R;
  b_ecc : R;
  b_dist : R
}.

(** StrainModel on one source: [h_0] of lines 165-166. *)
Definition h_0_of (b : Binary) : R :=
  strain (m_chirp (b_m1 b) (b_m2 b)) (b_dist b) (b_porb b).

(** Lines 165-167 (and 239-241) as a computation of their own: the Series
    [h_0].  Nothing in these lines validates the inputs or raises. *)
Definition strain_series (m1 m2 porb dist : list R) : result (list R) :=
  let mChirp := broadcast2 m_chirp m1 m2 in
  Returned (broadcast3 strain mChirp dist porb).

(** ** The strain computation with the special values of a double *)

Module ieee.

(** A double as numpy holds it, rounding apart: a finite value, an infinity
    with its sign, or NaN.  Zero is +0. *)
Inductive float : Type :=
  | Fin (x : R)
  | Inf (negative : bool)
  | NaN.

Definition is_negative (x : R) : bool := bool_decide (x < 0).

(** [a + b]. *)
Definition add (a b : float) : float :=
  match a, b with
  | NaN, _ | _, NaN => NaN
  | Fin x, Fin y => Fin (x + y)
  | Inf s, Fin _ | Fin _, Inf s => Inf s
  | Inf s, Inf t => if bool_decide (s = t) then Inf s else NaN
  end.

(** [a * b]: an infinity times zero is NaN. *)
Definition mul (a b : float) : float :=
  match a, b with
  | NaN, _ | _, NaN => NaN
  | Fin x, Fin y => Fin (x * y)
  | Inf s, Fin y | Fin y, Inf s =>
      if decide (y = 0) then NaN else Inf (xorb s (is_negative y))
  | Inf s, Inf t => Inf (xorb s t)
  end.

(** [a / b] on arrays: a division by zero gives an infinity with the sign of
    the numerator, 0/0 and inf/inf give NaN; numpy warns and goes on. *)
Definition div (a b : float) : float :=
  match a, b with
  | NaN, _ | _, NaN => NaN
  | Fin x, Fin y =>
      if decide (y = 0)
      then if decide (x = 0) then NaN else Inf (is_negative x)
      else Fin (x / y)
  | Fin _, Inf _ => Fin 0
  | Inf s, Fin y => Inf (xorb s (is_negative y))
  | Inf _, Inf _ => NaN
  end.

(** [a ** y] for a float exponent [y > 0] that is no integer: NaN for a
    negative base, +inf for either infinity. *)
Definition power (a : float) (y : R) : float :=
  match a with
  | NaN => NaN
  | Fin x => if decide (x < 0) then NaN else Fin (np.power x y)
  | Inf _ => Inf false
  end.

(** Line 65: [(m1*m2)**(3./5.)/(m1+m2)**(1./5.)]. *)
Definition m_chirp (m1 m2 : float) : float :=
  div (power (mul m1 m2) (3 / 5)) (power (add m1 m2) (1 / 5)).

(** Lines 166 and 240:
    [8*G/c**2*(mChirp)/(dist)*(G/c**3*2*np.pi*(1/(porb))*mChirp)**(2./3.)];
    [8*G/c**2] and [G/c**3*2*np.pi] are products of the module's finite
    constants. *)
Definition strain (mChirp dist porb : float) : float :=
  mul (div (mul (Fin (8 * G / c ^ 2)) mChirp) dist)
    (power
       (mul (mul (Fin (G / c ^ 3 * 2 * PI)) (div (Fin 1) porb)) mChirp)
       (2 / 3)).

(** [h_0] of one source whose five fields are finite. *)
Definition h_0_of (b : Binary) : float :=
  strain (m_chirp (Fin (b_m1 b)) (Fin (b_m2 b))) (Fin (b_dist b))
    (Fin (b_porb b)).

(** Lines 165-166 (and 239-240): the Series [h_0]. *)
Definition strain_series (m1 m2 porb dist : list float)
  : result (list float) :=
  let mChirp := broadcast2 m_chirp m1 m2 in
  Returned (broadcast3 strain mChirp dist porb).

(** The columns of a catalog as Series of doubles. *)
Definition strain_of_catalog (cat : list Binary) : result (list float) :=
  strain_series ((fun b => Fin (b_m1 b)) <$> cat)
    ((fun b => Fin (b_m2 b)) <$> cat) ((fun b => Fin (b_porb b)) <$> cat)
    ((fun b => Fin (b_dist b)) <$> cat).

End ieee.

(** ** SNRAggregator and PSDAggregator *)

Section Detector.

Variable jv : Z -> R -> R.

(** The callable [LISA_psd = lisa_sensitivity.lisa_root_psd()]. *)
Variable lisa_root_psd : R -> R.

(** Lines 163-189 of [LISA_SNR]: the arrays [gw_freq] and [SNR] before they
    are put in a table. *)
Definition SNR_columns (m1 m2 porb ecc dist : list R) (n_harmonic : Z)
  (Tobs : R) : result (list R * list R) :=
  let LISA_psd := lisa_root_psd in
  let mChirp := broadcast2 m_chirp m1 m2 in
  let h_0 := broadcast3 strain mChirp dist porb in
  let h_0_squared := (fun h => h ^ 2) <$> h_0 in
  let SNR := np.zeros (length mChirp) in
  let gw_freq := np.zeros (length mChirp) in
  let ind_ecc := np.where_ ((fun e => bool_decide (0.1 < e)) <$> ecc) in
  let ind_circ := np.where_ ((fun e => bool_decide (e <= 0.1)) <$> ecc) in
  let SNR :=
    np.put SNR ind_circ
      (broadcast2 (fun h p => h * 1 / 4 * Tobs / LISA_psd (2 / p) ^ 2)
         (iloc h_0_squared ind_circ) (iloc porb ind_circ)) in
  let gw_freq :=
    np.put gw_freq ind_circ ((fun p => 2 / p) <$> iloc porb ind_circ) in
  if decide (0 < length ind_ecc)%nat then
    (* With n_harmonic <= 1 the harmonic axis has length zero (or a negative
       size is requested): the product of line 186 or the assignment of
       line 188 fails to broadcast, or np.ones / reshape reject the size. *)
    if decide (n_harmonic <= 1)%Z then Raised ValueError else
    let peters_g_factor :=
      peters_gfac_series jv (iloc ecc ind_ecc) n_harmonic in
    let GW_freq_array :=
      np.transpose
        ((fun p => (fun n => IZR n / p) <$> np.arangeZ 1 n_harmonic)
           <$> iloc porb ind_ecc) in
    let GW_freq_flat := np.flatten GW_freq_array in
    let LISA_curve_eval_flat := (fun f => LISA_psd f ^ 2) <$> GW_freq_flat in
    LISA_curve_eval ←
      np.reshape LISA_curve_eval_flat
        (Z.to_nat (n_harmonic - 1)) (length ind_ecc);
    let h_0_squared_ecc :=
      np.transpose
        ((fun h => Rmult h <$> np.ones (Z.to_nat (n_harmonic - 1)))
           <$> iloc h_0_squared ind_ecc) in
    let SNR_squared :=
      np.zip2d Rdiv
        (np.zip2d Rmult (np.map2d (fun x => x * Tobs) h_0_squared_ecc)
           peters_g_factor)
        LISA_curve_eval in
    let SNR :=
      np.put SNR ind_ecc
        ((fun x => np.power x 0.5) <$> np.sum_axis0 SNR_squared) in
    let gw_freq :=
      np.put gw_freq ind_ecc
        (broadcast4 peak_gw_freq (iloc m1 ind_ecc) (iloc m2 ind_ecc)
           (iloc ecc ind_ecc) (iloc porb ind_ecc)) in
    Returned (gw_freq, SNR)
  else Returned (gw_freq, SNR).

(** Lines 190-196: the table with columns ['gw_freq', 'SNR'] (a row is the
    pair of the two) and its threshold.  [SNR_dat.SNR > 1.0] is the boolean
    Series, one entry per row, whose [len] the condition takes. *)
Definition SNR_threshold (gw_freq SNR : list R) : list (R * R) :=
  let SNR_dat := zip gw_freq SNR in
  let mask := (fun r : R * R => bool_decide (1 < r.2)) <$> SNR_dat in
  if decide (1 < length mask)%nat
  then filter (fun r => 1 < r.2) SNR_dat
  else [].

Definition LISA_SNR (m1 m2 porb ecc dist : list R) (n_harmonic : Z)
  (Tobs : R) : result (list (R * R)) :=
  cols ← SNR_columns m1 m2 porb ecc dist n_harmonic Tobs;
  Returned (SNR_threshold cols.1 cols.2).

(** [LISA_PSD]: a table with columns ['freq', 'PSD']. *)
Definition LISA_PSD (m1 m2 porb ecc dist : list R) (n_harmonic : Z)
  (Tobs : R) : result (list (R * R)) :=
  let mChirp := broadcast2 m_chirp m1 m2 in
  let h_0 := broadcast3 strain mChirp dist porb in
  let h_0_squared := (fun h => h ^ 2) <$> h_0 in
  let freq : list R := [] in
  let psd : list R := [] in
  let ind_ecc := np.where_ ((fun e => bool_decide (0.1 < e)) <$> ecc) in
  let ind_circ := np.where_ ((fun e => bool_decide (e <= 0.1)) <$> ecc) in
  let power := (fun h => h * 1 / 4 * Tobs) <$> iloc h_0_squared ind_circ in
  let psd := psd ++ power in
  let freq := freq ++ ((fun p => 2 / p) <$> iloc porb ind_circ) in
  if decide (0 < length ind_ecc)%nat then
    let peters_g_factor :=
      peters_gfac_series jv (iloc ecc ind_ecc) n_harmonic in
    (* Line 256 reads h_0_squared_ecc (and line 260 GW_freq_flat): locals of
       LISA_SNR, bound neither in this function nor at module level. *)
    Raised (NameError "h_0_squared_ecc")
  else Returned (zip freq psd).

(** *** The specification's per-source formulas *)

(** Section 4.4, step 3: the SNR of an eccentric source. *)
Definition snr_ecc_spec (b : Binary) (n_harmonic : Z) (Tobs : R) : R :=
  sqrt (np.sum
          ((fun n => h_0_of b ^ 2 * Tobs * g_spec jv n (b_ecc b)
                     / lisa_root_psd (IZR n / b_porb b) ^ 2)
             <$> seqZ 1 (n_harmonic - 1))).

(** Section 4.4, step 2: the squared SNR of a circular source. *)
Definition snr_squared_circ_spec (b : Binary) (Tobs : R) : R :=
  h_0_of b ^ 2 * (1 / 4) * Tobs / lisa_root_psd (2 / b_porb b) ^ 2.

(** Section 4.5: the samples of one eccentric source. *)
Definition psd_ecc_spec (b : Binary) (n_harmonic : Z) (Tobs : R)
  : list (R * R) :=
  (fun n => (IZR n / b_porb b, h_0_of b ^ 2 * Tobs * g_spec jv n (b_ecc b)))
    <$> seqZ 1 (n_harmonic - 1).

End Detector.

(** Section 4.4, step 3: the closed-form peak frequency.  The separation
    [a] follows from Kepler's third law, a^3 = G (m1 + m2) porb^2 / (4 pi^2),
    and the peak frequency is sqrt(G (m1 + m2)) / pi times the correction
    (1 + ecc)^1.1954 / (a (1 - ecc)^2)^1.5. *)
Definition kepler_separation (m1 m2 porb : R) : R :=
  np.power (G * (m1 + m2) * porb ^ 2 / (4 * PI ^ 2)) (1 / 3).

Definition peak_gw_freq_spec (m1 m2 ecc porb : R) : R :=
  sqrt (G * (m1 + m2)) / PI
  * (np.power (1 + ecc) 1.1954
     / np.power (kepler_separation m1 m2 porb * (1 - ecc) ^ 2) 1.5).

(** The columns of a catalog, as the Series the functions receive. *)
Definition LISA_SNR_catalog jv lisa_root_psd (cat : list Binary) :=
  LISA_SNR jv lisa_root_psd (b_m1 <$> cat) (b_m2 <$> cat) (b_porb <$> cat)
    (b_ecc <$> cat) (b_dist <$> cat).

Definition SNR_columns_catalog jv lisa_root_psd (cat : list Binary) :=
  SNR_columns jv lisa_root_psd (b_m1 <$> cat) (b_m2 <$> cat)
    (b_porb <$> cat) (b_ecc <$> cat) (b_dist <$> cat).

Definition LISA_PSD_catalog jv (cat : list Binary) :=
  LISA_PSD jv (b_m1 <$> cat) (b_m2 <$> cat) (b_porb <$> cat)
    (b_ecc <$> cat) (b_dist <$> cat).

(** The entries that lines 175-189 leave in [gw_freq] and [SNR] for one
    source, branch by branch (proved below to be what the arrays hold). *)
Definition stored_gw_freq (b : Binary) : R :=
  if decide (0.1 < b_ecc b)
  then peak_gw_freq (b_m1 b) (b_m2 b) (b_ecc b) (b_porb b)
  else 2 / b_porb b.

Definition stored_SNR jv lisa_root_psd (n_harmonic : Z) (Tobs : R)
  (b : Binary) : R :=
  if decide (0.1 < b_ecc b)
  then snr_ecc_spec jv lisa_root_psd b n_harmonic Tobs
  else h_0_of b ^ 2 * 1 / 4 * Tobs / lisa_root_psd (2 / b_porb b) ^ 2.

(** ** ForegroundBinner *)

(** The DataFrame [psd_dat]: its rows (freq, PSD), and the column ['digits']
    when it has one. *)
Record psd_frame : Type := mkFrame {
  samples : list (R * R);
  digits : option (list nat)
}.

Definition columns (df : psd_frame) : list string :=
  ["freq"; "PSD"]%string
  ++ match digits df with Some _ => ["digits"%string] | None => [] end.

(** [compute_foreground(psd_dat, Tobs)]: the frame [psd_dat] as the call
    leaves it, and the outcome.  [Tobs] is a Python float, so [1.0/Tobs]
    raises ZeroDivisionError at zero.  A negative [Tobs] leaves no bin edge;
    what [np.digitize] does with an empty edge array depends on the numpy
    release, and the properties of the spectrum below take [Tobs > 0]. *)
Definition compute_foreground (psd_dat : psd_frame) (Tobs : R)
  : psd_frame * result (list (R * R)) :=
  if decide (Tobs = 0) then (psd_dat, Raised ZeroDivisionError) else
  let binwidth := 1 / Tobs in
  let freqBinsLISA := np.arange 5e-4 1e-2 binwidth in
  let binIndices := np.digitize (samples psd_dat).*1 freqBinsLISA in
  let psd_dat := mkFrame (samples psd_dat) (Some binIndices) in
  let power_sum := pd.groupby_sum binIndices (samples psd_dat).*2 in
  let power_tot := np.zeros (length freqBinsLISA + 1) in
  (psd_dat,
   power_tot ←
     np.put_broadcast power_tot
       (np.slice_to power_sum.*1 (Z.of_nat (length freqBinsLISA) - 1))
       power_sum.*2;
   Returned (zip freqBinsLISA (drop 1 power_tot))).

(** The frequency range the foreground spectrum is meant to span. *)
Definition in_band (f : R) : Prop := 5e-4 <= f < 1e-2.

#[global] Instance in_band_dec f : Decision (in_band f).
Proof. unfold in_band. apply _. Defined.

(** ** Arrays by entries *)

(** The two-dimensional array of shape [(r, c)] whose entry [(i, j)] is
    [f i j]; the arrays of [LISA_SNR] are compared with their entries. *)
Definition tab2 (r c : nat) (f : nat -> nat -> R) : list (list R) :=
  (fun i => f i <$> seq 0 c) <$> seq 0 r.

(** The total of the values filed under key [d] in a list of (key, value)
    pairs: with the bin indices as keys, the PSD that falls in bin [d]. *)
Definition total_of (d : nat) (kvs : list (nat * R)) : R :=
  np.sum ((fun kv => if decide (kv.1 = d) then kv.2 else 0) <$> kvs).

(** The total PSD of the samples whose frequency satisfies [P]. *)
Definition psd_where (P : R -> Prop) `{forall f, Decision (P f)}
  (samples : list (R * R)) : R :=
  np.sum ((fun s => if decide (P s.1) then s.2 else 0) <$> samples).

(** ** Sample inputs *)

(** A stand-in for the Bessel function and a flat noise curve, used where an
    example needs the collaborators instantiated. *)
Definition jv_sample : Z -> R -> R := fun k x => IZR k + x.

Definition flat_noise (a : R) : R -> R := fun _ => a.

(** The scenario of section 8: m1 = m2 = 0.5 Msun, porb = 1000 s,
    dist = 1 kpc, with the eccentricity left open. *)
Definition scenario (ecc : R) : Binary :=
  mkBinary (0.5 * Msun) (0.5 * Msun) 1000 ecc (1000 * parsec).

(** Four years of observation. *)
Definition Tobs_4yr : R := 4 * sec_in_year.

(** A frame with one in-band sample, as [LISA_PSD] would hand it over. *)
Definition one_sample_frame : psd_frame := mkFrame [(0.002, 1)] None.

(** One sample in the band and one far above it. *)
Definition overflow_frame : psd_frame := mkFrame [(0.002, 1); (0.5, 10)] None.

(** Two in-band samples that fall in different bins. *)
Definition two_bin_frame : psd_frame := mkFrame [(0.001, 1); (0.006, 1)] None.

(** A source with a zero orbital period. *)
Definition zero_period_source : Binary := mkBinary Msun Msun 0 0 parsec.

(** A source with a negative primary mass. *)
Definition negative_mass_source : Binary :=
  mkBinary (- Msun) Msun 1000 0 parsec.

(** The values of the Bessel functions at the origin, J_0(0) = 1 and
    J_k(0) = 0 otherwise, extended by the same values elsewhere. *)
Definition jv_origin : Z -> R -> R :=
  fun k _ => if decide (k = 0%Z) then 1 else 0.

(** A catalog of two circular sources and one of a circular and an
    eccentric source. *)
Definition circular_pair : list Binary := [scenario 0; scenario 0.05].

Definition mixed_pair : list Binary := [scenario 0; scenario 0.9].

(** * Properties *)

(** ** Arrays: lengths *)

Lemma length_put (ind : list nat) (vals a : list R) :
  length (np.put a ind vals) = length a.
Proof.
  unfold np.put. generalize (zip ind vals) as ivs. intros ivs. revert a.
  induction ivs as [|iv ivs IH]; intros a; simpl; [reflexivity|].
  rewrite IH. apply length_insert.
Qed.

Lemma length_arangeZ (a b : Z) :
  length (np.arangeZ a b) = Z.to_nat (b - a).
Proof. unfold np.arangeZ. apply length_seqZ. Qed.

Lemma lookup_arangeZ (a b i : Z) :
  (0 <= i < b - a)%Z -> np.arangeZ a b !! Z.to_nat i = Some (a + i)%Z.
Proof.
  intros Hi. unfold np.arangeZ.
  replace (Z.to_nat i) with (Z.to_nat i) by reflexivity.
  rewrite lookup_seqZ. split; [f_equal; lia | lia].
Qed.

(** ** HarmonicWeights *)

Lemma g_fac_entry_spec (jv : Z -> R -> R) (n : Z) (ecc : R) :
  g_fac_entry jv n ecc = g_spec jv n ecc.
Proof. unfold g_fac_entry, g_spec. reflexivity. Qed.

(** Every entry is a sum of squares with non-negative weights. *)
Lemma g_fac_entry_nonneg (jv : Z -> R -> R) (n : Z) (ecc : R) :
  (1 <= n)%Z -> -1 <= ecc <= 1 -> 0 <= g_fac_entry jv n ecc.
Proof.
  intros Hn He. unfold g_fac_entry. cbv zeta.
  assert (HnR : 1 <= IZR n) by (apply IZR_le; exact Hn).
  set (A := jv (n - 2)%Z (IZR n * ecc) - 2 * ecc * jv (n - 1)%Z (IZR n * ecc)
            + 2 / IZR n * jv n (IZR n * ecc)
            + 2 * ecc * jv (n + 1)%Z (IZR n * ecc)
            - jv (n + 2)%Z (IZR n * ecc)).
  set (B := jv (n - 2)%Z (IZR n * ecc) - 2 * jv n (IZR n * ecc)
            + jv (n + 2)%Z (IZR n * ecc)).
  set (J := jv n (IZR n * ecc)).
  pose proof (pow2_ge_0 A) as HA. pose proof (pow2_ge_0 B) as HB.
  pose proof (pow2_ge_0 J) as HJ.
  assert (Hn2 : 0 < IZR n ^ 2) by nra.
  assert (Hn4 : 0 <= IZR n ^ 4 / 32).
  { replace (IZR n ^ 4) with (IZR n ^ 2 * IZR n ^ 2) by ring. nra. }
  assert (He2 : 0 <= 1 - ecc ^ 2) by nra.
  assert (Hc : 0 <= 4 / (3 * IZR n ^ 2)).
  { apply Rlt_le, Rdiv_lt_0_compat; lra. }
  assert (HS : 0 <= A ^ 2 + (1 - ecc ^ 2) * B ^ 2
                    + 4 / (3 * IZR n ^ 2) * J ^ 2).
  { pose proof (Rmult_le_pos _ _ He2 HB). pose proof (Rmult_le_pos _ _ Hc HJ).
    lra. }
  apply Rmult_le_pos; [apply Rmult_le_pos; assumption|].
  apply Rlt_le, Rinv_0_lt_compat. exact Hn2.
Qed.

(** C5: for an eccentricity in [0,1) and [n_harmonic >= 2], [peters_gfac]
    returns exactly [n_harmonic - 1] entries, and the entry for harmonic [n]
    (at position [n - 1]) is the specification's [g(n, ecc)]. *)
Theorem peters_gfac_entries (jv : Z -> R -> R) (ecc : R) (n_harmonic : Z) :
  0 <= ecc < 1 ->
  (2 <= n_harmonic)%Z ->
  Z.of_nat (length (peters_gfac jv ecc n_harmonic)) = (n_harmonic - 1)%Z
  /\ forall n : Z,
       (1 <= n <= n_harmonic - 1)%Z ->
       peters_gfac jv ecc n_harmonic !! Z.to_nat (n - 1)
       = Some (g_spec jv n ecc).
Proof.
  intros _ HN. unfold peters_gfac. split.
  - rewrite length_fmap, length_arangeZ. lia.
  - intros n Hn. rewrite list_lookup_fmap, lookup_arangeZ by lia. simpl.
    rewrite g_fac_entry_spec. do 2 f_equal. lia.
Qed.

Lemma peters_gfac_entries_witness :
  Z.of_nat (length (peters_gfac jv_sample 0.9 10)) = 9%Z
  /\ peters_gfac jv_sample 0.9 10 !! 1%nat = Some (g_spec jv_sample 2 0.9).
Proof.
  destruct (peters_gfac_entries jv_sample 0.9 10) as [Hlen Hent];
    [lra | lia |].
  split; [exact Hlen | apply (Hent 2%Z); lia].
Defined.

(** ** [np.where] and index assignment *)

Lemma elem_of_where_from (mask : list bool) (i j : nat) :
  j ∈ np.where_from i mask <-> (i <= j)%nat /\ mask !! (j - i)%nat = Some true.
Proof.
  revert i. induction mask as [|b mask IH]; intros i; simpl.
  - split; [intros H; inversion H | intros [_ H]; discriminate].
  - assert (Hshift : j ∈ np.where_from (S i) mask
                     <-> (i < j)%nat /\ (b :: mask) !! (j - i)%nat = Some true).
    { rewrite IH. split.
      - intros [Hle Hl]. split; [lia|].
        replace (j - i)%nat with (S (j - S i)) by lia. exact Hl.
      - intros [Hlt Hl]. split; [lia|].
        replace (j - i)%nat with (S (j - S i)) in Hl by lia. exact Hl. }
    destruct b.
    + rewrite elem_of_cons, Hshift. split.
      * intros [->|[Hlt Hl]]; [|split; [lia | exact Hl]].
        split; [lia|]. replace (i - i)%nat with 0%nat by lia. reflexivity.
      * intros [Hle Hl]. destruct (decide (j = i)) as [->|Hne]; [by left|].
        right. split; [lia | exact Hl].
    + rewrite Hshift. split.
      * intros [Hlt Hl]. split; [lia | exact Hl].
      * intros [Hle Hl]. destruct (decide (j = i)) as [->|Hne].
        -- replace (i - i)%nat with 0%nat in Hl by lia. discriminate.
        -- split; [lia | exact Hl].
Qed.

Lemma elem_of_where (mask : list bool) (j : nat) :
  j ∈ np.where_ mask <-> mask !! j = Some true.
Proof.
  unfold np.where_. rewrite elem_of_where_from.
  replace (j - 0)%nat with j by lia. split; [tauto | split; [lia | done]].
Qed.

Lemma NoDup_where_from (mask : list bool) (i : nat) :
  NoDup (np.where_from i mask).
Proof.
  revert i. induction mask as [|b mask IH]; intros i; simpl.
  - constructor.
  - destruct b; [|apply IH]. constructor; [|apply IH].
    rewrite elem_of_where_from. lia.
Qed.

Lemma NoDup_where (mask : list bool) : NoDup (np.where_ mask).
Proof. apply NoDup_where_from. Qed.

Lemma lookup_put_notin (ind : list nat) (vals a : list R) (i : nat) :
  i ∉ ind -> np.put a ind vals !! i = a !! i.
Proof.
  unfold np.put. revert vals a.
  induction ind as [|i0 ind IH]; intros vals a Hi; [reflexivity|].
  destruct vals as [|v0 vals]; [reflexivity|]. simpl.
  rewrite not_elem_of_cons in Hi. destruct Hi as [Hne Hi].
  rewrite IH by exact Hi. apply list_lookup_insert_ne. congruence.
Qed.

Lemma lookup_put (ind : list nat) (vals a : list R) (i j : nat) (v : R) :
  NoDup ind ->
  ind !! j = Some i ->
  vals !! j = Some v ->
  (i < length a)%nat ->
  np.put a ind vals !! i = Some v.
Proof.
  revert vals a j.
  induction ind as [|i0 ind IH]; intros vals a j Hnd Hj Hv Hlen;
    [discriminate|].
  destruct vals as [|v0 vals]; [discriminate|].
  inversion Hnd as [|? ? Hnotin Hnd']; subst.
  destruct j as [|j]; simpl in Hj, Hv.
  - injection Hj as ->. injection Hv as ->.
    change (np.put (<[i := v]> a) ind vals !! i = Some v).
    rewrite lookup_put_notin by exact Hnotin.
    apply list_lookup_insert_eq. exact Hlen.
  - change (np.put (<[i0 := v0]> a) ind vals !! i = Some v).
    apply (IH vals _ j); auto. rewrite length_insert. exact Hlen.
Qed.

(** ** The threshold of [LISA_SNR] *)

Lemma SNR_threshold_short (gw_freq SNR : list R) :
  (length gw_freq <= 1)%nat -> SNR_threshold gw_freq SNR = [].
Proof.
  intros Hlen. unfold SNR_threshold.
  case_decide as Hmask; [|reflexivity].
  rewrite length_fmap, length_zip in Hmask. lia.
Qed.

Lemma SNR_threshold_long (gw_freq SNR : list R) :
  (1 < length (zip gw_freq SNR))%nat ->
  SNR_threshold gw_freq SNR = filter (fun r => 1 < r.2) (zip gw_freq SNR).
Proof.
  intros Hlen. unfold SNR_threshold.
  case_decide as Hmask; [reflexivity|].
  rewrite length_fmap in Hmask. lia.
Qed.

Lemma SNR_threshold_above (gw_freq SNR : list R) :
  Forall (fun r => 1 < r.2) (SNR_threshold gw_freq SNR).
Proof.
  unfold SNR_threshold. case_decide; [|constructor].
  apply Forall_forall. intros r Hr.
  apply list_elem_of_filter in Hr. tauto.
Qed.

(** C6: every row of the table that [LISA_SNR] returns has SNR > 1.0. *)
Theorem LISA_SNR_rows_above_threshold (jv : Z -> R -> R) (noise : R -> R)
  (m1 m2 porb ecc dist : list R) (n_harmonic : Z) (Tobs : R) :
  match LISA_SNR jv noise m1 m2 porb ecc dist n_harmonic Tobs with
  | Returned rows => Forall (fun r => 1 < r.2) rows
                     /\ forall r, r ∈ rows -> ~ r.2 <= 1
  | Raised _ => True
  end.
Proof.
  unfold LISA_SNR.
  destruct (SNR_columns jv noise m1 m2 porb ecc dist n_harmonic Tobs)
    as [[gw SNR]|e]; simpl; [|exact I].
  pose proof (SNR_threshold_above gw SNR) as Hall. split; [exact Hall|].
  intros r Hr Hle. rewrite Forall_forall in Hall.
  specialize (Hall r Hr). simpl in Hall. lra.
Qed.

(** ** Two-dimensional arrays *)

Lemma nth_fmap_seq (g : nat -> R) (c j : nat) :
  (j < c)%nat -> nth j (g <$> seq 0 c) 0 = g j.
Proof.
  intros Hj. rewrite nth_lookup, list_lookup_fmap, lookup_seq_lt by exact Hj.
  reflexivity.
Qed.

Lemma fmap_seq_ext {A : Type} (f g : nat -> A) (n : nat) :
  (forall i, (i < n)%nat -> f i = g i) -> f <$> seq 0 n = g <$> seq 0 n.
Proof.
  intros H. apply list_fmap_ext. intros i x Hx.
  apply lookup_seq in Hx. destruct Hx as [-> Hi]. apply H. exact Hi.
Qed.

Lemma fmap_as_seq {A B : Type} (d : A) (g : A -> B) (l : list A) :
  g <$> l = (fun j => g (nth j l d)) <$> seq 0 (length l).
Proof.
  apply list_eq. intros i. rewrite !list_lookup_fmap.
  destruct (decide (i < length l)%nat) as [Hi|Hi].
  - rewrite lookup_seq_lt by exact Hi. simpl.
    destruct (lookup_lt_is_Some_2 l i Hi) as [x Hx].
    rewrite Hx. simpl. rewrite nth_lookup, Hx. reflexivity.
  - rewrite lookup_seq_ge by lia. rewrite lookup_ge_None_2 by lia.
    reflexivity.
Qed.

Lemma arangeZ_as_seq (N : Z) :
  np.arangeZ 1 N = (fun n : nat => (1 + Z.of_nat n)%Z) <$> seq 0 (Z.to_nat (N - 1)).
Proof.
  unfold np.arangeZ, seqZ. apply list_fmap_ext. intros i x _. lia.
Qed.

Lemma length_tab2 (r c : nat) (f : nat -> nat -> R) :
  length (tab2 r c f) = r.
Proof. unfold tab2. rewrite length_fmap. apply length_seq. Qed.

Lemma tab2_ext (r c : nat) (f g : nat -> nat -> R) :
  (forall i j, (i < r)%nat -> (j < c)%nat -> f i j = g i j) ->
  tab2 r c f = tab2 r c g.
Proof.
  intros H. unfold tab2. apply fmap_seq_ext. intros i Hi.
  apply fmap_seq_ext. intros j Hj. apply H; assumption.
Qed.

Lemma transpose_tab2 (r c : nat) (f : nat -> nat -> R) :
  (0 < r)%nat ->
  np.transpose (tab2 r c f) = tab2 c r (fun j i => f i j).
Proof.
  intros Hr. destruct r as [|r]; [lia|].
  unfold np.transpose.
  change (tab2 (S r) c f) with ((f 0%nat <$> seq 0 c) :: ((fun i => f i <$> seq 0 c) <$> seq 1 r)) at 1.
  cbv beta iota. rewrite length_fmap, length_seq.
  unfold tab2. apply fmap_seq_ext. intros j Hj.
  rewrite <- list_fmap_compose. apply fmap_seq_ext. intros i Hi.
  simpl. apply nth_fmap_seq. exact Hj.
Qed.

Lemma map2d_tab2 (g : R -> R) (r c : nat) (f : nat -> nat -> R) :
  np.map2d g (tab2 r c f) = tab2 r c (fun i j => g (f i j)).
Proof.
  unfold np.map2d, tab2. rewrite <- list_fmap_compose.
  apply fmap_seq_ext. intros i _. simpl.
  rewrite <- list_fmap_compose. reflexivity.
Qed.

Lemma zip2d_tab2 (g : R -> R -> R) (r c : nat) (a b : nat -> nat -> R) :
  np.zip2d g (tab2 r c a) (tab2 r c b)
  = tab2 r c (fun i j => g (a i j) (b i j)).
Proof.
  unfold np.zip2d, tab2.
  rewrite zip_with_fmap_l, zip_with_fmap_r, zip_with_diag.
  apply fmap_seq_ext. intros i _.
  rewrite zip_with_fmap_l, zip_with_fmap_r, zip_with_diag. reflexivity.
Qed.

Lemma sum_axis0_tab2 (r c : nat) (f : nat -> nat -> R) :
  (0 < r)%nat ->
  np.sum_axis0 (tab2 r c f)
  = (fun j => np.sum ((fun i => f i j) <$> seq 0 r)) <$> seq 0 c.
Proof.
  intros Hr. unfold np.sum_axis0. rewrite transpose_tab2 by exact Hr.
  unfold tab2. rewrite <- list_fmap_compose. reflexivity.
Qed.

Lemma length_concat_rect (A : list (list R)) (c : nat) :
  Forall (fun row => length row = c) A ->
  length (concat A) = (length A * c)%nat.
Proof.
  induction 1 as [|row A Hrow _ IH]; simpl; [reflexivity|].
  rewrite length_app, IH, Hrow. reflexivity.
Qed.

Lemma take_drop_concat_rect (A : list (list R)) (c i : nat) (row : list R) :
  Forall (fun row => length row = c) A ->
  A !! i = Some row ->
  take c (drop (i * c) (concat A)) = row.
Proof.
  intros HA. revert i. induction HA as [|a A Ha _ IH]; intros i Hi;
    [discriminate|].
  destruct i as [|i]; simpl in *.
  - injection Hi as ->. apply take_app_length'. symmetry. exact Ha.
  - rewrite drop_app_add' by (symmetry; exact Ha). apply IH. exact Hi.
Qed.

Lemma tab2_rect (r c : nat) (f : nat -> nat -> R) :
  Forall (fun row => length row = c) (tab2 r c f).
Proof.
  apply Forall_forall. intros row Hrow. unfold tab2 in Hrow.
  apply list_elem_of_fmap in Hrow. destruct Hrow as (i & -> & _).
  rewrite length_fmap. apply length_seq.
Qed.

Lemma lookup_tab2 (r c i : nat) (f : nat -> nat -> R) :
  (i < r)%nat -> tab2 r c f !! i = Some (f i <$> seq 0 c).
Proof.
  intros Hi. unfold tab2.
  rewrite list_lookup_fmap, lookup_seq_lt by exact Hi. reflexivity.
Qed.

Lemma reshape_flatten_tab2 (g : R -> R) (r c : nat) (f : nat -> nat -> R) :
  np.reshape (g <$> np.flatten (tab2 r c f)) r c
  = Returned (tab2 r c (fun i j => g (f i j))).
Proof.
  unfold np.reshape, np.flatten.
  pose proof (tab2_rect r c f) as Hrect.
  rewrite length_fmap, (length_concat_rect _ c Hrect), length_tab2.
  rewrite decide_True by reflexivity. f_equal.
  unfold tab2 at 2. apply fmap_seq_ext. intros i Hi.
  rewrite <- fmap_drop, <- fmap_take.
  rewrite (take_drop_concat_rect _ c i (f i <$> seq 0 c) Hrect)
    by (apply lookup_tab2; exact Hi).
  rewrite <- list_fmap_compose. reflexivity.
Qed.

Lemma replicate_as_seq (n : nat) (x : R) :
  replicate n x = (fun _ => x) <$> seq 0 n.
Proof.
  apply list_eq. intros i. rewrite list_lookup_fmap.
  destruct (decide (i < n)%nat) as [Hi|Hi].
  - rewrite lookup_replicate_2, lookup_seq_lt by exact Hi. reflexivity.
  - rewrite lookup_seq_ge by lia. apply lookup_replicate_None. lia.
Qed.

Lemma rows_as_tab2 (F : R -> nat -> R) (l : list R) (c : nat) :
  (fun p => F p <$> seq 0 c) <$> l
  = tab2 (length l) c (fun j n => F (nth j l 0) n).
Proof. unfold tab2. apply (fmap_as_seq 0). Qed.

(** ** Pointwise arithmetic on the columns of a catalog *)

Lemma broadcast2_fmap {A B C D : Type} (f : B -> C -> D) (g : A -> B)
  (h : A -> C) (l : list A) :
  broadcast2 f (g <$> l) (h <$> l) = (fun x => f (g x) (h x)) <$> l.
Proof.
  unfold broadcast2.
  rewrite zip_with_fmap_l, zip_with_fmap_r, zip_with_diag. reflexivity.
Qed.

Lemma broadcast3_fmap {A B C D E : Type} (f : B -> C -> D -> E)
  (g : A -> B) (h : A -> C) (k : A -> D) (l : list A) :
  broadcast3 f (g <$> l) (h <$> l) (k <$> l)
  = (fun x => f (g x) (h x) (k x)) <$> l.
Proof.
  unfold broadcast3. rewrite (broadcast2_fmap f g h l : zip_with f _ _ = _).
  rewrite zip_with_fmap_l, zip_with_fmap_r, zip_with_diag. reflexivity.
Qed.

Lemma broadcast4_fmap {A B C D E F : Type} (f : B -> C -> D -> E -> F)
  (g : A -> B) (h : A -> C) (k : A -> D) (m : A -> E) (l : list A) :
  broadcast4 f (g <$> l) (h <$> l) (k <$> l) (m <$> l)
  = (fun x => f (g x) (h x) (k x) (m x)) <$> l.
Proof.
  unfold broadcast4. rewrite broadcast3_fmap.
  rewrite zip_with_fmap_l, zip_with_fmap_r, zip_with_diag. reflexivity.
Qed.

Lemma nth_column {A : Type} (g : A -> R) (cat : list A) (i : nat) (b : A) :
  cat !! i = Some b -> nth i (g <$> cat) 0 = g b.
Proof.
  intros Hb. rewrite nth_lookup, list_lookup_fmap, Hb. reflexivity.
Qed.

Lemma lookup_put_fmap (F : nat -> R) (ind : list nat) (a : list R) (i : nat) :
  NoDup ind ->
  i ∈ ind ->
  (i < length a)%nat ->
  np.put a ind (F <$> ind) !! i = Some (F i).
Proof.
  intros Hnd Hi Hlen. apply list_elem_of_lookup in Hi. destruct Hi as [j Hj].
  apply (lookup_put ind _ a i j); auto.
  rewrite list_lookup_fmap, Hj. reflexivity.
Qed.

Lemma two_puts_eq (n : nat) (indc inde : list nat) (Fc Fe : nat -> R)
  (target : list R) :
  NoDup indc ->
  NoDup inde ->
  length target = n ->
  (forall i, i ∈ inde -> (i < n)%nat) ->
  (forall i, (i < n)%nat ->
     (i ∈ inde /\ target !! i = Some (Fe i))
     \/ ((i ∉ inde) /\ (i ∈ indc) /\ target !! i = Some (Fc i))) ->
  np.put (np.put (np.zeros n) indc (Fc <$> indc)) inde (Fe <$> inde) = target.
Proof.
  intros Hc He Hlen Hin Hcases. apply list_eq. intros i.
  assert (Hz : length (np.zeros n) = n) by apply length_replicate.
  destruct (decide (i < n)%nat) as [Hi|Hi].
  - destruct (Hcases i Hi) as [[Hie ->]|(Hie & Hic & ->)].
    + apply lookup_put_fmap; auto. rewrite length_put, Hz. exact Hi.
    + rewrite lookup_put_notin by exact Hie.
      apply lookup_put_fmap; auto. rewrite Hz. exact Hi.
  - rewrite (lookup_ge_None_2 target) by lia.
    apply lookup_ge_None_2. rewrite !length_put, Hz. lia.
Qed.

(** ** The harmonic expansion of [LISA_SNR] (lines 179-188) *)

Section Harmonics.

Variable jv : Z -> R -> R.
Variable noise : R -> R.
Variables (N : Z) (Tobs : R).
Variables hs ps es : list R.
Hypothesis HN : (2 <= N)%Z.
Hypothesis Hk : (0 < length ps)%nat.
Hypothesis Hhs : length hs = length ps.
Hypothesis Hes : length es = length ps.

Let n1 := Z.to_nat (N - 1).
Let k := length ps.

Lemma GW_freq_array_entries :
  np.transpose ((fun p => (fun n => IZR n / p) <$> np.arangeZ 1 N) <$> ps)
  = tab2 n1 k (fun n j => IZR (1 + Z.of_nat n) / nth j ps 0).
Proof.
  rewrite arangeZ_as_seq.
  rewrite (list_fmap_ext _
             (fun p => (fun n : nat => IZR (1 + Z.of_nat n) / p) <$> seq 0 n1)
             ps).
  - rewrite (rows_as_tab2 (fun p n => IZR (1 + Z.of_nat n) / p)).
    rewrite transpose_tab2 by exact Hk. reflexivity.
  - intros i p _. rewrite <- list_fmap_compose. reflexivity.
Qed.

Lemma LISA_curve_eval_entries :
  np.reshape
    ((fun f => noise f ^ 2)
       <$> np.flatten
             (np.transpose
                ((fun p => (fun n => IZR n / p) <$> np.arangeZ 1 N) <$> ps)))
    n1 k
  = Returned
      (tab2 n1 k (fun n j => noise (IZR (1 + Z.of_nat n) / nth j ps 0) ^ 2)).
Proof. rewrite GW_freq_array_entries. apply reshape_flatten_tab2. Qed.

Lemma h_0_squared_ecc_entries :
  np.transpose ((fun h => Rmult h <$> np.ones n1) <$> hs)
  = tab2 n1 k (fun n j => nth j hs 0 * 1).
Proof.
  unfold np.ones. rewrite replicate_as_seq.
  rewrite (list_fmap_ext _ (fun h => (fun _ : nat => h * 1) <$> seq 0 n1)
             hs).
  - rewrite (rows_as_tab2 (fun h _ => h * 1)).
    rewrite transpose_tab2 by (rewrite Hhs; exact Hk).
    rewrite Hhs. reflexivity.
  - intros i h _. rewrite <- list_fmap_compose. reflexivity.
Qed.

Lemma peters_g_factor_entries :
  peters_gfac_series jv es N
  = tab2 n1 k (fun n j => g_fac_entry jv (1 + Z.of_nat n) (nth j es 0)).
Proof.
  unfold peters_gfac_series. rewrite arangeZ_as_seq, <- list_fmap_compose.
  unfold tab2. apply fmap_seq_ext. intros n _. simpl.
  rewrite (fmap_as_seq 0), Hes. reflexivity.
Qed.

Lemma SNR_squared_sum :
  np.sum_axis0
    (np.zip2d Rdiv
       (np.zip2d Rmult
          (np.map2d (fun x => x * Tobs)
             (np.transpose ((fun h => Rmult h <$> np.ones n1) <$> hs)))
          (peters_gfac_series jv es N))
       (tab2 n1 k
          (fun n j => noise (IZR (1 + Z.of_nat n) / nth j ps 0) ^ 2)))
  = (fun j =>
       np.sum
         ((fun n : nat =>
             nth j hs 0 * 1 * Tobs
             * g_fac_entry jv (1 + Z.of_nat n) (nth j es 0)
             / noise (IZR (1 + Z.of_nat n) / nth j ps 0) ^ 2)
            <$> seq 0 n1))
      <$> seq 0 k.
Proof.
  rewrite h_0_squared_ecc_entries, peters_g_factor_entries.
  rewrite map2d_tab2, !zip2d_tab2.
  apply sum_axis0_tab2. subst n1. lia.
Qed.

End Harmonics.

(** ** Powers *)

Lemma np_power_pos (x y : R) : 0 < x -> 0 < np.power x y.
Proof.
  intros Hx. unfold np.power. rewrite decide_True by exact Hx.
  unfold Rpower. apply exp_pos.
Qed.

Lemma np_power_half (x : R) : np.power x 0.5 = sqrt x.
Proof.
  unfold np.power. case_decide as Hx.
  - replace 0.5 with (/ 2) by lra. apply Rpower_sqrt. exact Hx.
  - symmetry. apply sqrt_neg_0. lra.
Qed.

(** ** The arrays of [LISA_SNR] before the threshold *)

Section Columns.

Variable jv : Z -> R -> R.
Variable noise : R -> R.
Variable cat : list Binary.
Variables (N : Z) (Tobs : R).

Let ind_ecc :=
  np.where_ ((fun e => bool_decide (0.1 < e)) <$> (b_ecc <$> cat)).
Let ind_circ :=
  np.where_ ((fun e => bool_decide (e <= 0.1)) <$> (b_ecc <$> cat)).

Lemma elem_of_ind_ecc (i : nat) :
  i ∈ ind_ecc <-> exists b, cat !! i = Some b /\ 0.1 < b_ecc b.
Proof.
  unfold ind_ecc. rewrite elem_of_where, !list_lookup_fmap.
  destruct (cat !! i) as [b|]; simpl.
  - split.
    + intros H. injection H as H. apply bool_decide_eq_true in H. eauto.
    + intros (b' & Hb & He). injection Hb as <-.
      f_equal. apply bool_decide_eq_true. exact He.
  - split; [discriminate | intros (b & Hb & _); discriminate].
Qed.

Lemma elem_of_ind_circ (i : nat) :
  i ∈ ind_circ <-> exists b, cat !! i = Some b /\ b_ecc b <= 0.1.
Proof.
  unfold ind_circ. rewrite elem_of_where, !list_lookup_fmap.
  destruct (cat !! i) as [b|]; simpl.
  - split.
    + intros H. injection H as H. apply bool_decide_eq_true in H. eauto.
    + intros (b' & Hb & He). injection Hb as <-.
      f_equal. apply bool_decide_eq_true. exact He.
  - split; [discriminate | intros (b & Hb & _); discriminate].
Qed.

Lemma ind_ecc_lt (i : nat) : i ∈ ind_ecc -> (i < length cat)%nat.
Proof.
  rewrite elem_of_ind_ecc. intros (b & Hb & _).
  apply lookup_lt_Some in Hb. exact Hb.
Qed.

Lemma ind_split (i : nat) (b : Binary) :
  cat !! i = Some b ->
  (0.1 < b_ecc b /\ i ∈ ind_ecc)
  \/ (~ 0.1 < b_ecc b /\ (i ∉ ind_ecc) /\ (i ∈ ind_circ)).
Proof.
  intros Hb. destruct (decide (0.1 < b_ecc b)) as [He|He].
  - left. split; [exact He|]. apply elem_of_ind_ecc. eauto.
  - right. split; [exact He|]. split.
    + rewrite elem_of_ind_ecc. intros (b' & Hb' & He').
      rewrite Hb in Hb'. injection Hb' as <-. contradiction.
    + apply elem_of_ind_circ. exists b. split; [exact Hb | lra].
Qed.

Lemma nth_iloc (s : list R) (ind : list nat) (j : nat) :
  (j < length ind)%nat -> nth j (iloc s ind) 0 = nth (nth j ind 0%nat) s 0.
Proof.
  intros Hj. unfold iloc. rewrite nth_lookup, list_lookup_fmap.
  destruct (lookup_lt_is_Some_2 ind j Hj) as [i Hi].
  rewrite Hi. simpl. rewrite (nth_lookup ind), Hi. reflexivity.
Qed.

Lemma length_iloc (s : list R) (ind : list nat) :
  length (iloc s ind) = length ind.
Proof. unfold iloc. apply length_fmap. Qed.

(** The value assigned by line 188 to the eccentric source at catalog
    position [i]. *)
Lemma ecc_SNR_values (h0sq porb ecc : list R) (ind : list nat) :
  (2 <= N)%Z ->
  (0 < length ind)%nat ->
  (fun x => np.power x 0.5)
    <$> ((fun j =>
            np.sum
              ((fun n : nat =>
                  nth j (iloc h0sq ind) 0 * 1 * Tobs
                  * g_fac_entry jv (1 + Z.of_nat n) (nth j (iloc ecc ind) 0)
                  / noise (IZR (1 + Z.of_nat n) / nth j (iloc porb ind) 0) ^ 2)
                 <$> seq 0 (Z.to_nat (N - 1))))
           <$> seq 0 (length ind))
  = (fun i =>
       sqrt
         (np.sum
            ((fun n : nat =>
                nth i h0sq 0 * 1 * Tobs
                * g_fac_entry jv (1 + Z.of_nat n) (nth i ecc 0)
                / noise (IZR (1 + Z.of_nat n) / nth i porb 0) ^ 2)
               <$> seq 0 (Z.to_nat (N - 1)))))
      <$> ind.
Proof.
  intros _ _. rewrite <- list_fmap_compose.
  rewrite (fmap_as_seq 0%nat _ ind).
  apply fmap_seq_ext. intros j Hj. simpl.
  rewrite np_power_half, !nth_iloc by exact Hj. reflexivity.
Qed.

Lemma ecc_SNR_value_spec (i : nat) (b : Binary) :
  cat !! i = Some b ->
  sqrt
    (np.sum
       ((fun n : nat =>
           nth i ((fun b => h_0_of b ^ 2) <$> cat) 0 * 1 * Tobs
           * g_fac_entry jv (1 + Z.of_nat n) (nth i (b_ecc <$> cat) 0)
           / noise (IZR (1 + Z.of_nat n) / nth i (b_porb <$> cat) 0) ^ 2)
          <$> seq 0 (Z.to_nat (N - 1))))
  = snr_ecc_spec jv noise b N Tobs.
Proof.
  intros Hb. unfold snr_ecc_spec, seqZ.
  rewrite !(nth_column _ cat i b Hb), <- list_fmap_compose.
  do 2 f_equal. apply fmap_seq_ext. intros n _. simpl.
  replace (Z.of_nat n + 1)%Z with (1 + Z.of_nat n)%Z by lia.
  rewrite g_fac_entry_spec. unfold Rdiv. ring.
Qed.

Lemma SNR_columns_catalog_eq :
  (2 <= N)%Z ->
  SNR_columns_catalog jv noise cat N Tobs
  = Returned (stored_gw_freq <$> cat, stored_SNR jv noise N Tobs <$> cat).
Proof.
  intros HN. unfold SNR_columns_catalog, SNR_columns.
  rewrite broadcast2_fmap.
  rewrite (broadcast3_fmap strain (fun b => m_chirp (b_m1 b) (b_m2 b))
             b_dist b_porb cat).
  change (fun x => strain (m_chirp (b_m1 x) (b_m2 x)) (b_dist x) (b_porb x))
    with h_0_of.
  rewrite <- (list_fmap_compose h_0_of (fun h => h ^ 2) cat).
  change ((fun h => h ^ 2) ∘ h_0_of) with (fun b => h_0_of b ^ 2).
  rewrite length_fmap.
  fold ind_ecc ind_circ. cbv zeta.
  assert (Hgw_c : (fun p => 2 / p) <$> iloc (b_porb <$> cat) ind_circ
                  = (fun i => 2 / nth i (b_porb <$> cat) 0) <$> ind_circ).
  { unfold iloc. rewrite <- list_fmap_compose. reflexivity. }
  assert (Hsnr_c :
            broadcast2 (fun h p => h * 1 / 4 * Tobs / noise (2 / p) ^ 2)
              (iloc ((fun b => h_0_of b ^ 2) <$> cat) ind_circ)
              (iloc (b_porb <$> cat) ind_circ)
            = (fun i =>
                 nth i ((fun b => h_0_of b ^ 2) <$> cat) 0 * 1 / 4 * Tobs
                 / noise (2 / nth i (b_porb <$> cat) 0) ^ 2) <$> ind_circ).
  { unfold iloc.
    apply (broadcast2_fmap
             (fun h p => h * 1 / 4 * Tobs / noise (2 / p) ^ 2)
             (fun i => nth i ((fun b => h_0_of b ^ 2) <$> cat) 0)
             (fun i => nth i (b_porb <$> cat) 0) ind_circ). }
  rewrite Hgw_c, Hsnr_c. clear Hgw_c Hsnr_c.
  assert (Hcirc_only : forall i b, cat !! i = Some b -> ~ 0.1 < b_ecc b ->
            stored_gw_freq b = 2 / nth i (b_porb <$> cat) 0
            /\ stored_SNR jv noise N Tobs b
               = nth i ((fun b => h_0_of b ^ 2) <$> cat) 0 * 1 / 4 * Tobs
                 / noise (2 / nth i (b_porb <$> cat) 0) ^ 2).
  { intros i b Hb He. unfold stored_gw_freq, stored_SNR.
    rewrite !decide_False by exact He.
    rewrite !(nth_column _ cat i b Hb). split; reflexivity. }
  case_decide as Hk.
  - rewrite decide_False by lia.
    pose proof (LISA_curve_eval_entries noise N
                  (iloc (b_porb <$> cat) ind_ecc)) as HL.
    rewrite length_iloc in HL. rewrite (HL Hk). clear HL.
    cbv beta iota delta [mbind result_bind].
    pose proof (SNR_squared_sum jv noise N Tobs
                  (iloc ((fun b => h_0_of b ^ 2) <$> cat) ind_ecc)
                  (iloc (b_porb <$> cat) ind_ecc)
                  (iloc (b_ecc <$> cat) ind_ecc)) as HS.
    rewrite !length_iloc in HS.
    rewrite (HS HN Hk eq_refl eq_refl). clear HS.
    rewrite (ecc_SNR_values _ _ _ ind_ecc HN Hk).
    assert (Hgw_e :
              broadcast4 peak_gw_freq (iloc (b_m1 <$> cat) ind_ecc)
                (iloc (b_m2 <$> cat) ind_ecc) (iloc (b_ecc <$> cat) ind_ecc)
                (iloc (b_porb <$> cat) ind_ecc)
              = (fun i =>
                   peak_gw_freq (nth i (b_m1 <$> cat) 0)
                     (nth i (b_m2 <$> cat) 0) (nth i (b_ecc <$> cat) 0)
                     (nth i (b_porb <$> cat) 0)) <$> ind_ecc).
    { unfold iloc.
      apply (broadcast4_fmap peak_gw_freq
               (fun i => nth i (b_m1 <$> cat) 0)
               (fun i => nth i (b_m2 <$> cat) 0)
               (fun i => nth i (b_ecc <$> cat) 0)
               (fun i => nth i (b_porb <$> cat) 0) ind_ecc). }
    rewrite Hgw_e. clear Hgw_e.
    do 2 f_equal.
    + apply two_puts_eq; try apply NoDup_where.
      * apply length_fmap.
      * apply ind_ecc_lt.
      * intros i Hi. destruct (lookup_lt_is_Some_2 cat i Hi) as [b Hb].
        rewrite list_lookup_fmap, Hb. simpl.
        destruct (ind_split i b Hb) as [[He Hie]|(He & Hie & Hic)].
        -- left. split; [exact Hie|]. f_equal. unfold stored_gw_freq.
           rewrite decide_True by exact He.
           rewrite !(nth_column _ cat i b Hb). reflexivity.
        -- right. split; [exact Hie|]. split; [exact Hic|]. f_equal.
           apply (Hcirc_only i b Hb He).
    + apply two_puts_eq; try apply NoDup_where.
      * apply length_fmap.
      * apply ind_ecc_lt.
      * intros i Hi. destruct (lookup_lt_is_Some_2 cat i Hi) as [b Hb].
        rewrite list_lookup_fmap, Hb. simpl.
        destruct (ind_split i b Hb) as [[He Hie]|(He & Hie & Hic)].
        -- left. split; [exact Hie|]. f_equal. unfold stored_SNR.
           rewrite decide_True by exact He. symmetry.
           apply ecc_SNR_value_spec. exact Hb.
        -- right. split; [exact Hie|]. split; [exact Hic|]. f_equal.
           apply (Hcirc_only i b Hb He).
  - assert (Hnil : ind_ecc = []).
    { destruct ind_ecc; [reflexivity | simpl in Hk; lia]. }
    do 2 f_equal.
    + match goal with
      | |- np.put ?a ?ind ?v = _ =>
          change (np.put a ind v)
            with (np.put (np.put a ind v) []
                    ((fun _ : nat => 0) <$> ([] : list nat)))
      end.
      apply two_puts_eq;
        [apply NoDup_where | constructor | apply length_fmap
        | intros i Hi; inversion Hi | ].
      intros i Hi. destruct (lookup_lt_is_Some_2 cat i Hi) as [b Hb].
        rewrite list_lookup_fmap, Hb. simpl.
        destruct (ind_split i b Hb) as [[He Hie]|(He & Hie & Hic)].
      * rewrite Hnil in Hie. inversion Hie.
      * right. split; [intros H; inversion H|]. split; [exact Hic|].
        f_equal. apply (Hcirc_only i b Hb He).
    + match goal with
      | |- np.put ?a ?ind ?v = _ =>
          change (np.put a ind v)
            with (np.put (np.put a ind v) []
                    ((fun _ : nat => 0) <$> ([] : list nat)))
      end.
      apply two_puts_eq;
        [apply NoDup_where | constructor | apply length_fmap
        | intros i Hi; inversion Hi | ].
      intros i Hi. destruct (lookup_lt_is_Some_2 cat i Hi) as [b Hb].
        rewrite list_lookup_fmap, Hb. simpl.
        destruct (ind_split i b Hb) as [[He Hie]|(He & Hie & Hic)].
      * rewrite Hnil in Hie. inversion Hie.
      * right. split; [intros H; inversion H|]. split; [exact Hic|].
        f_equal. apply (Hcirc_only i b Hb He).
Qed.

End Columns.

(** ** SNRAggregator *)

Lemma LISA_SNR_catalog_eq (jv : Z -> R -> R) (noise : R -> R)
  (cat : list Binary) (N : Z) (Tobs : R) :
  (2 <= N)%Z ->
  LISA_SNR_catalog jv noise cat N Tobs
  = Returned (SNR_threshold (stored_gw_freq <$> cat)
                (stored_SNR jv noise N Tobs <$> cat)).
Proof.
  intros HN. unfold LISA_SNR_catalog, LISA_SNR.
  pose proof (SNR_columns_catalog_eq jv noise cat N Tobs HN) as Hcols.
  unfold SNR_columns_catalog in Hcols. rewrite Hcols. reflexivity.
Qed.

(** For a catalog of two or more sources the table holds exactly the rows
    whose SNR entry exceeds 1.0, in catalog order. *)
Lemma LISA_SNR_catalog_filter (jv : Z -> R -> R) (noise : R -> R)
  (cat : list Binary) (N : Z) (Tobs : R) :
  (2 <= N)%Z ->
  (1 < length cat)%nat ->
  LISA_SNR_catalog jv noise cat N Tobs
  = Returned
      (filter (fun r => 1 < r.2)
         ((fun b => (stored_gw_freq b, stored_SNR jv noise N Tobs b))
            <$> cat)).
Proof.
  intros HN Hlen. rewrite LISA_SNR_catalog_eq by exact HN.
  rewrite SNR_threshold_long by (rewrite length_zip, !length_fmap; lia).
  rewrite zip_with_fmap_l, zip_with_fmap_r, zip_with_diag. reflexivity.
Qed.

Lemma sqrt_neq_self (v : R) : v <> 0 -> v <> 1 -> sqrt v <> v.
Proof.
  intros H0 H1 Heq.
  destruct (Rlt_le_dec v 0) as [Hneg|Hpos].
  - rewrite sqrt_neg_0 in Heq by lra. lra.
  - destruct (Rlt_le_dec v 1) as [Hlt|Hge].
    + pose proof (sqrt_more v) as H. lra.
    + pose proof (sqrt_less v) as H. lra.
Qed.

(** C1 (the code departs from it): a catalog of one source never yields a
    row.  The condition of line 191 takes the length of the boolean Series,
    which is the number of rows, and asks for more than one: the single row
    is dropped whatever its SNR, where the claim keeps it when SNR > 1. *)
Theorem LISA_SNR_single_source_empty (jv : Z -> R -> R) (noise : R -> R)
  (b : Binary) (N : Z) (Tobs : R) :
  (2 <= N)%Z ->
  SNR_columns_catalog jv noise [b] N Tobs
  = Returned ([stored_gw_freq b], [stored_SNR jv noise N Tobs b])
  /\ LISA_SNR_catalog jv noise [b] N Tobs = Returned [].
Proof.
  intros HN. split.
  - apply (SNR_columns_catalog_eq jv noise [b] N Tobs HN).
  - rewrite LISA_SNR_catalog_eq by exact HN.
    rewrite SNR_threshold_short; [reflexivity | simpl; lia].
Qed.

(** The code's [peak_gw_freq] is the specification's closed form. *)
Lemma peak_gw_freq_closed_form (m1 m2 ecc porb : R) :
  peak_gw_freq m1 m2 ecc porb = peak_gw_freq_spec m1 m2 ecc porb.
Proof.
  unfold peak_gw_freq, peak_gw_freq_spec, kepler_separation. cbv zeta.
  rewrite np_power_half.
  pose proof PI_RGT_0 as Hpi.
  replace (G / (4 * PI ^ 2) * porb ^ 2 * (m1 + m2))
    with (G * (m1 + m2) * porb ^ 2 / (4 * PI ^ 2)) by (field; lra).
  unfold Rdiv. ring.
Qed.

(** Every row of the table of [LISA_SNR] is a position of the two arrays,
    with an SNR entry above 1.0. *)
Lemma SNR_threshold_rows (gw_freq SNR : list R) (row : R * R) :
  row ∈ SNR_threshold gw_freq SNR ->
  exists j : nat,
    gw_freq !! j = Some row.1 /\ SNR !! j = Some row.2 /\ 1 < row.2.
Proof.
  unfold SNR_threshold. case_decide; [|intros Hin; inversion Hin].
  intros Hin. apply list_elem_of_filter in Hin. destruct Hin as [Hgt Hin].
  apply list_elem_of_lookup in Hin. destruct Hin as [j Hj].
  apply lookup_zip_with_Some in Hj. destruct Hj as (f & v & -> & Hf & Hv).
  exists j. simpl. auto.
Qed.

(** C2: for an eccentric source (ecc > 0.1) at position [i] of the catalog,
    [LISA_SNR] computes the SNR as the square root of the sum over the
    harmonics n = 1 .. n_harmonic-1 of h0^2 * Tobs * g(n, ecc) /
    noise(n/porb)^2, the noise curve taken at n/porb, and the frequency as
    the specification's closed form: sqrt(G (m1+m2)) / pi * (1+ecc)^1.1954
    / (a (1-ecc)^2)^1.5 with the separation [a] of Kepler's third law.  The
    returned table is the threshold of these two arrays: each of its rows
    is a position of the arrays, so a reported eccentric source carries
    these two values, and with more than one row in the catalog the source
    is reported as soon as its SNR exceeds 1. *)
Theorem LISA_SNR_eccentric_source (jv : Z -> R -> R) (noise : R -> R)
  (cat : list Binary) (N : Z) (Tobs : R) (i : nat) (b : Binary) :
  (2 <= N)%Z ->
  cat !! i = Some b ->
  0.1 < b_ecc b ->
  exists gw_freq SNR : list R,
    SNR_columns_catalog jv noise cat N Tobs = Returned (gw_freq, SNR)
    /\ SNR !! i = Some (snr_ecc_spec jv noise b N Tobs)
    /\ gw_freq !! i
       = Some (peak_gw_freq_spec (b_m1 b) (b_m2 b) (b_ecc b) (b_porb b))
    /\ LISA_SNR_catalog jv noise cat N Tobs
       = Returned (SNR_threshold gw_freq SNR)
    /\ (forall row : R * R,
          row ∈ SNR_threshold gw_freq SNR ->
          exists j : nat,
            gw_freq !! j = Some row.1 /\ SNR !! j = Some row.2
            /\ 1 < row.2)
    /\ ((1 < length cat)%nat ->
        1 < snr_ecc_spec jv noise b N Tobs ->
        (peak_gw_freq_spec (b_m1 b) (b_m2 b) (b_ecc b) (b_porb b),
         snr_ecc_spec jv noise b N Tobs) ∈ SNR_threshold gw_freq SNR).
Proof.
  intros HN Hb He.
  exists (stored_gw_freq <$> cat), (stored_SNR jv noise N Tobs <$> cat).
  assert (Hgw : (stored_gw_freq <$> cat) !! i
                = Some (peak_gw_freq_spec (b_m1 b) (b_m2 b) (b_ecc b)
                          (b_porb b))).
  { rewrite list_lookup_fmap, Hb. simpl. unfold stored_gw_freq.
    rewrite decide_True by exact He.
    rewrite peak_gw_freq_closed_form. reflexivity. }
  assert (Hsnr : (stored_SNR jv noise N Tobs <$> cat) !! i
                 = Some (snr_ecc_spec jv noise b N Tobs)).
  { rewrite list_lookup_fmap, Hb. simpl. unfold stored_SNR.
    rewrite decide_True by exact He. reflexivity. }
  split; [apply SNR_columns_catalog_eq; exact HN|].
  split; [exact Hsnr|]. split; [exact Hgw|].
  split; [apply LISA_SNR_catalog_eq; exact HN|].
  split; [intros row; apply SNR_threshold_rows|].
  intros Hlen Hgt. rewrite SNR_threshold_long.
  - apply list_elem_of_filter. split; [exact Hgt|].
    apply list_elem_of_lookup. exists i.
    apply lookup_zip_with_Some. eauto.
  - rewrite length_zip, !length_fmap. lia.
Qed.

(** C3 (the code departs from it): for a circular source (ecc <= 0.1) at
    position [i], [LISA_SNR] computes the frequency 2/porb, and as SNR the
    value h0^2 * (1/4) * Tobs / noise(2/porb)^2 itself: line 175 takes
    no square root, where the eccentric path (line 188) does.  In a catalog
    of more than one row the source is reported when that value exceeds 1,
    and the SNR of its row in the returned table is the value, which is
    then strictly more than the square root the claim gives. *)
Theorem LISA_SNR_circular_source (jv : Z -> R -> R) (noise : R -> R)
  (cat : list Binary) (N : Z) (Tobs : R) (i : nat) (b : Binary) :
  (2 <= N)%Z ->
  cat !! i = Some b ->
  b_ecc b <= 0.1 ->
  exists gw_freq SNR : list R,
    SNR_columns_catalog jv noise cat N Tobs = Returned (gw_freq, SNR)
    /\ gw_freq !! i = Some (2 / b_porb b)
    /\ SNR !! i = Some (snr_squared_circ_spec noise b Tobs)
    /\ (snr_squared_circ_spec noise b Tobs <> 0 ->
        snr_squared_circ_spec noise b Tobs <> 1 ->
        SNR !! i <> Some (sqrt (snr_squared_circ_spec noise b Tobs)))
    /\ LISA_SNR_catalog jv noise cat N Tobs
       = Returned (SNR_threshold gw_freq SNR)
    /\ ((1 < length cat)%nat ->
        1 < snr_squared_circ_spec noise b Tobs ->
        (2 / b_porb b, snr_squared_circ_spec noise b Tobs)
          ∈ SNR_threshold gw_freq SNR
        /\ sqrt (snr_squared_circ_spec noise b Tobs)
           < snr_squared_circ_spec noise b Tobs).
Proof.
  intros HN Hb He.
  exists (stored_gw_freq <$> cat), (stored_SNR jv noise N Tobs <$> cat).
  assert (Hsnr : (stored_SNR jv noise N Tobs <$> cat) !! i
                 = Some (snr_squared_circ_spec noise b Tobs)).
  { rewrite list_lookup_fmap, Hb. simpl. unfold stored_SNR.
    rewrite decide_False by lra. f_equal.
    unfold snr_squared_circ_spec, Rdiv. ring. }
  assert (Hgw : (stored_gw_freq <$> cat) !! i = Some (2 / b_porb b)).
  { rewrite list_lookup_fmap, Hb. simpl. unfold stored_gw_freq.
    rewrite decide_False by lra. reflexivity. }
  split; [apply SNR_columns_catalog_eq; exact HN|].
  split; [exact Hgw|]. split; [exact Hsnr|]. split.
  { intros H0 H1. rewrite Hsnr. intros Heq.
    injection Heq as Heq. symmetry in Heq.
    exact (sqrt_neq_self _ H0 H1 Heq). }
  split; [apply LISA_SNR_catalog_eq; exact HN|].
  intros Hlen Hgt. split.
  - rewrite SNR_threshold_long
      by (rewrite length_zip, !length_fmap; lia).
    apply list_elem_of_filter. split; [exact Hgt|].
    apply list_elem_of_lookup. exists i.
    apply lookup_zip_with_Some. eauto.
  - apply sqrt_less; lra.
Qed.

(** ** PSDAggregator *)

(** C4 (the code departs from it): whenever the catalog holds an eccentric
    source, [LISA_PSD] raises NameError at line 256 instead of returning the
    n_harmonic - 1 samples per eccentric source: [h_0_squared_ecc] and
    [GW_freq_flat] are locals of [LISA_SNR]. *)
Theorem LISA_PSD_eccentric_raises (jv : Z -> R -> R) (cat : list Binary)
  (N : Z) (Tobs : R) (i : nat) (b : Binary) :
  cat !! i = Some b ->
  0.1 < b_ecc b ->
  LISA_PSD_catalog jv cat N Tobs = Raised (NameError "h_0_squared_ecc")
  /\ forall rows, LISA_PSD_catalog jv cat N Tobs <> Returned rows.
Proof.
  intros Hb He.
  assert (Hraise : LISA_PSD_catalog jv cat N Tobs
                   = Raised (NameError "h_0_squared_ecc")).
  { unfold LISA_PSD_catalog, LISA_PSD. cbv zeta.
    rewrite decide_True; [reflexivity|].
    assert (Hin : i ∈ np.where_
                        ((fun e => bool_decide (0.1 < e)) <$> (b_ecc <$> cat)))
      by (apply elem_of_ind_ecc; eauto).
    destruct (np.where_ _); [inversion Hin | simpl; lia]. }
  split; [exact Hraise|]. intros rows. rewrite Hraise. discriminate.
Qed.

Lemma LISA_PSD_eccentric_raises_witness :
  length (psd_ecc_spec jv_sample (scenario 0.9) 10 Tobs_4yr) = 9%nat
  /\ LISA_PSD_catalog jv_sample [scenario 0.9] 10 Tobs_4yr
     = Raised (NameError "h_0_squared_ecc").
Proof.
  split; [reflexivity|].
  apply (LISA_PSD_eccentric_raises jv_sample [scenario 0.9] 10 Tobs_4yr
           0 (scenario 0.9)).
  - reflexivity.
  - simpl. lra.
Defined.

(** ** StrainModel *)

Lemma G_pos : 0 < G.
Proof. unfold G. lra. Qed.

Lemma c_pos : 0 < c.
Proof. unfold c. lra. Qed.

Lemma m_chirp_pos (m1 m2 : R) : 0 < m1 -> 0 < m2 -> 0 < m_chirp m1 m2.
Proof.
  intros H1 H2. unfold m_chirp. apply Rdiv_lt_0_compat.
  - apply np_power_pos. apply Rmult_lt_0_compat; assumption.
  - apply np_power_pos. lra.
Qed.

Lemma strain_pos (mChirp dist porb : R) :
  0 < mChirp -> 0 < dist -> 0 < porb -> 0 < strain mChirp dist porb.
Proof.
  intros Hm Hd Hp. unfold strain.
  pose proof G_pos as HG. pose proof c_pos as Hc. pose proof PI_RGT_0 as Hpi.
  assert (Hc2 : 0 < c ^ 2) by (apply pow_lt; exact Hc).
  assert (Hc3 : 0 < c ^ 3) by (apply pow_lt; exact Hc).
  assert (Hr : 0 < 1 / porb) by (apply Rdiv_lt_0_compat; lra).
  assert (Hgc2 : 0 < 8 * G / c ^ 2)
    by (apply Rdiv_lt_0_compat; [lra | exact Hc2]).
  assert (Hgc3 : 0 < G / c ^ 3)
    by (apply Rdiv_lt_0_compat; [lra | exact Hc3]).
  apply Rmult_lt_0_compat.
  - apply Rdiv_lt_0_compat; [|exact Hd].
    apply Rmult_lt_0_compat; assumption.
  - apply np_power_pos.
    apply Rmult_lt_0_compat; [|exact Hm].
    apply Rmult_lt_0_compat; [|exact Hr].
    apply Rmult_lt_0_compat; [|exact Hpi]. lra.
Qed.

Lemma h_0_of_pos (b : Binary) :
  0 < b_m1 b -> 0 < b_m2 b -> 0 < b_porb b -> 0 < b_dist b -> 0 < h_0_of b.
Proof.
  intros H1 H2 Hp Hd. unfold h_0_of.
  apply strain_pos; [apply m_chirp_pos| |]; assumption.
Qed.

Lemma strain_series_catalog (cat : list Binary) :
  strain_series (b_m1 <$> cat) (b_m2 <$> cat) (b_porb <$> cat)
    (b_dist <$> cat)
  = Returned (h_0_of <$> cat).
Proof.
  unfold strain_series. rewrite broadcast2_fmap.
  rewrite (broadcast3_fmap strain (fun b => m_chirp (b_m1 b) (b_m2 b))
             b_dist b_porb cat).
  reflexivity.
Qed.

(** *** The strain with the special values of a double *)

Lemma ieee_mul_NaN_r (a : ieee.float) : ieee.mul a ieee.NaN = ieee.NaN.
Proof. destruct a; reflexivity. Qed.

Lemma ieee_div_NaN_r (a : ieee.float) : ieee.div a ieee.NaN = ieee.NaN.
Proof. destruct a; reflexivity. Qed.

Lemma is_negative_pos (x : R) : 0 < x -> ieee.is_negative x = false.
Proof.
  intros Hx. unfold ieee.is_negative. apply bool_decide_eq_false. lra.
Qed.

Lemma m_chirp_nonneg (m1 m2 : R) : 0 < m1 + m2 -> 0 <= m_chirp m1 m2.
Proof.
  intros Hs. unfold m_chirp.
  pose proof (np_power_pos (m1 + m2) (1 / 5) Hs) as Hden.
  assert (Hnum : 0 <= np.power (m1 * m2) (3 / 5)).
  { unfold np.power. case_decide; [|lra].
    unfold Rpower. apply Rlt_le, exp_pos. }
  apply Rmult_le_pos; [exact Hnum|].
  apply Rlt_le, Rinv_0_lt_compat. exact Hden.
Qed.

(** Where no special value arises the two models agree. *)
Lemma ieee_m_chirp_finite (m1 m2 : R) :
  0 <= m1 * m2 -> 0 < m1 + m2 ->
  ieee.m_chirp (ieee.Fin m1) (ieee.Fin m2) = ieee.Fin (m_chirp m1 m2).
Proof.
  intros H12 Hs.
  pose proof (np_power_pos (m1 + m2) (1 / 5) Hs) as Hden.
  cbv beta iota delta [ieee.m_chirp ieee.power ieee.mul ieee.add].
  rewrite (decide_False (P := m1 * m2 < 0)) by lra.
  rewrite (decide_False (P := m1 + m2 < 0)) by lra.
  cbv beta iota delta [ieee.div].
  rewrite decide_False by lra. reflexivity.
Qed.

Lemma strain_base_pos (mChirp porb : R) :
  0 < mChirp -> 0 < porb -> 0 < G / c ^ 3 * 2 * PI * (1 / porb) * mChirp.
Proof.
  intros Hm Hp.
  pose proof G_pos as HG. pose proof c_pos as Hc. pose proof PI_RGT_0 as Hpi.
  assert (Hc3 : 0 < c ^ 3) by (apply pow_lt; exact Hc).
  assert (Hr : 0 < 1 / porb) by (apply Rdiv_lt_0_compat; lra).
  assert (Hgc3 : 0 < G / c ^ 3)
    by (apply Rdiv_lt_0_compat; [lra | exact Hc3]).
  apply Rmult_lt_0_compat; [|exact Hm].
  apply Rmult_lt_0_compat; [|exact Hr].
  apply Rmult_lt_0_compat; [|exact Hpi]. lra.
Qed.

Lemma strain_factor_pos (mChirp : R) : 0 < mChirp -> 0 < 8 * G / c ^ 2 * mChirp.
Proof.
  intros Hm. pose proof G_pos as HG. pose proof c_pos as Hc.
  assert (Hc2 : 0 < c ^ 2) by (apply pow_lt; exact Hc).
  apply Rmult_lt_0_compat; [|exact Hm].
  apply Rdiv_lt_0_compat; [lra | exact Hc2].
Qed.

Lemma strain_constant_pos : 0 < G / c ^ 3 * 2 * PI.
Proof.
  pose proof G_pos as HG. pose proof c_pos as Hc. pose proof PI_RGT_0 as Hpi.
  assert (Hc3 : 0 < c ^ 3) by (apply pow_lt; exact Hc).
  assert (Hgc3 : 0 < G / c ^ 3)
    by (apply Rdiv_lt_0_compat; [lra | exact Hc3]).
  apply Rmult_lt_0_compat; [lra | exact Hpi].
Qed.

Lemma ieee_strain_finite (mChirp dist porb : R) :
  0 <= mChirp -> dist <> 0 -> 0 < porb ->
  ieee.strain (ieee.Fin mChirp) (ieee.Fin dist) (ieee.Fin porb)
  = ieee.Fin (strain mChirp dist porb).
Proof.
  intros Hm Hd Hp.
  pose proof strain_constant_pos as HK.
  assert (Hr : 0 < 1 / porb) by (apply Rdiv_lt_0_compat; lra).
  assert (Hbase : 0 <= G / c ^ 3 * 2 * PI * (1 / porb) * mChirp).
  { apply Rmult_le_pos; [|exact Hm].
    apply Rlt_le, Rmult_lt_0_compat; assumption. }
  cbv beta iota delta [ieee.strain ieee.mul ieee.div].
  rewrite (decide_False (P := dist = 0)) by exact Hd.
  rewrite (decide_False (P := porb = 0)) by lra.
  cbv beta iota delta [ieee.power].
  rewrite decide_False by lra. reflexivity.
Qed.

Lemma ieee_h_0_finite (b : Binary) :
  0 <= b_m1 b * b_m2 b -> 0 < b_m1 b + b_m2 b ->
  b_dist b <> 0 -> 0 < b_porb b ->
  ieee.h_0_of b = ieee.Fin (h_0_of b).
Proof.
  intros H12 Hs Hd Hp. unfold ieee.h_0_of, h_0_of.
  rewrite ieee_m_chirp_finite by assumption.
  apply ieee_strain_finite; [apply m_chirp_nonneg| |]; assumption.
Qed.

(** A zero period: [1/porb] is +inf, and so is the strain. *)
Lemma ieee_strain_zero_period (mChirp dist : R) :
  0 < mChirp -> 0 < dist ->
  ieee.strain (ieee.Fin mChirp) (ieee.Fin dist) (ieee.Fin 0)
  = ieee.Inf false.
Proof.
  intros Hm Hd.
  pose proof strain_constant_pos as HK.
  pose proof (strain_factor_pos mChirp Hm) as HA.
  assert (HAd : 0 < 8 * G / c ^ 2 * mChirp / dist)
    by (apply Rdiv_lt_0_compat; assumption).
  cbv beta iota delta [ieee.strain ieee.mul ieee.div].
  rewrite (decide_False (P := dist = 0)) by lra.
  rewrite (decide_True (P := 0 = 0)) by reflexivity.
  rewrite (decide_False (P := 1 = 0)) by lra.
  rewrite (is_negative_pos 1) by lra.
  cbv beta iota delta [ieee.mul].
  rewrite (decide_False (P := G / c ^ 3 * 2 * PI = 0)) by lra.
  rewrite (is_negative_pos (G / c ^ 3 * 2 * PI)) by exact HK.
  cbv beta iota delta [xorb ieee.mul].
  rewrite (decide_False (P := mChirp = 0)) by lra.
  rewrite (is_negative_pos mChirp) by exact Hm.
  cbv beta iota delta [xorb ieee.power ieee.mul].
  rewrite decide_False by lra.
  rewrite is_negative_pos by exact HAd. reflexivity.
Qed.

(** A zero distance: the quotient by [dist] is +inf. *)
Lemma ieee_strain_zero_distance (mChirp porb : R) :
  0 < mChirp -> 0 < porb ->
  ieee.strain (ieee.Fin mChirp) (ieee.Fin 0) (ieee.Fin porb)
  = ieee.Inf false.
Proof.
  intros Hm Hp.
  pose proof (strain_factor_pos mChirp Hm) as HA.
  pose proof (strain_base_pos mChirp porb Hm Hp) as HB.
  pose proof (np_power_pos _ (2 / 3) HB) as HP.
  cbv beta iota delta [ieee.strain ieee.mul ieee.div].
  rewrite (decide_True (P := 0 = 0)) by reflexivity.
  rewrite (decide_False (P := 8 * G / c ^ 2 * mChirp = 0)) by lra.
  rewrite (is_negative_pos (8 * G / c ^ 2 * mChirp)) by exact HA.
  rewrite (decide_False (P := porb = 0)) by lra.
  cbv beta iota delta [ieee.power].
  rewrite (decide_False
             (P := G / c ^ 3 * 2 * PI * (1 / porb) * mChirp < 0)) by lra.
  cbv beta iota delta [ieee.mul].
  rewrite decide_False by lra.
  rewrite is_negative_pos by exact HP. reflexivity.
Qed.

(** A negative period: the base of the fractional power is negative. *)
Lemma ieee_strain_negative_period (mChirp dist porb : R) :
  0 < mChirp -> porb < 0 ->
  ieee.strain (ieee.Fin mChirp) (ieee.Fin dist) (ieee.Fin porb) = ieee.NaN.
Proof.
  intros Hm Hp.
  pose proof strain_constant_pos as HK.
  assert (Hr : 1 / porb < 0).
  { unfold Rdiv. rewrite Rmult_1_l. apply Rinv_lt_0_compat. exact Hp. }
  assert (Hbase : G / c ^ 3 * 2 * PI * (1 / porb) * mChirp < 0).
  { assert (H1 : G / c ^ 3 * 2 * PI * (1 / porb) < 0) by nra. nra. }
  unfold ieee.strain.
  replace (ieee.power
             (ieee.mul
                (ieee.mul (ieee.Fin (G / c ^ 3 * 2 * PI))
                   (ieee.div (ieee.Fin 1) (ieee.Fin porb)))
                (ieee.Fin mChirp)) (2 / 3))
    with ieee.NaN; [apply ieee_mul_NaN_r|].
  cbv beta iota delta [ieee.div].
  rewrite (decide_False (P := porb = 0)) by lra.
  cbv beta iota delta [ieee.mul ieee.power].
  rewrite decide_True by exact Hbase. reflexivity.
Qed.

(** Masses of opposite sign, or a negative total mass: the chirp mass is
    NaN, and NaN goes through every later operation. *)
Lemma ieee_strain_NaN (dist porb : ieee.float) :
  ieee.strain ieee.NaN dist porb = ieee.NaN.
Proof.
  unfold ieee.strain.
  change (ieee.mul (ieee.Fin (8 * G / c ^ 2)) ieee.NaN) with ieee.NaN.
  reflexivity.
Qed.

Lemma ieee_m_chirp_NaN (m1 m2 : R) :
  m1 * m2 < 0 \/ m1 + m2 < 0 ->
  ieee.m_chirp (ieee.Fin m1) (ieee.Fin m2) = ieee.NaN.
Proof.
  intros [H|H]; unfold ieee.m_chirp.
  - cbv beta iota delta [ieee.mul ieee.power].
    rewrite (decide_True (P := m1 * m2 < 0)) by exact H. reflexivity.
  - replace (ieee.power (ieee.add (ieee.Fin m1) (ieee.Fin m2)) (1 / 5))
      with ieee.NaN; [apply ieee_div_NaN_r|].
    cbv beta iota delta [ieee.add ieee.power].
    rewrite decide_True by exact H. reflexivity.
Qed.

Lemma ieee_h_0_NaN (b : Binary) :
  b_m1 b * b_m2 b < 0 \/ b_m1 b + b_m2 b < 0 -> ieee.h_0_of b = ieee.NaN.
Proof.
  intros H. unfold ieee.h_0_of.
  rewrite ieee_m_chirp_NaN by exact H. apply ieee_strain_NaN.
Qed.

Lemma ieee_h_0_zero_period (b : Binary) :
  0 < b_m1 b -> 0 < b_m2 b -> 0 < b_dist b -> b_porb b = 0 ->
  ieee.h_0_of b = ieee.Inf false.
Proof.
  intros H1 H2 Hd Hp. unfold ieee.h_0_of.
  rewrite ieee_m_chirp_finite by nra. rewrite Hp.
  apply ieee_strain_zero_period; [apply m_chirp_pos|]; assumption.
Qed.

Lemma ieee_h_0_zero_distance (b : Binary) :
  0 < b_m1 b -> 0 < b_m2 b -> 0 < b_porb b -> b_dist b = 0 ->
  ieee.h_0_of b = ieee.Inf false.
Proof.
  intros H1 H2 Hp Hd. unfold ieee.h_0_of.
  rewrite ieee_m_chirp_finite by nra. rewrite Hd.
  apply ieee_strain_zero_distance; [apply m_chirp_pos|]; assumption.
Qed.

Lemma ieee_h_0_negative_period (b : Binary) :
  0 < b_m1 b -> 0 < b_m2 b -> b_porb b < 0 ->
  ieee.h_0_of b = ieee.NaN.
Proof.
  intros H1 H2 Hp. unfold ieee.h_0_of.
  rewrite ieee_m_chirp_finite by nra.
  apply ieee_strain_negative_period; [apply m_chirp_pos|]; assumption.
Qed.

(** A negative distance gives a negative strain. *)
Lemma h_0_of_negative_distance (b : Binary) :
  0 < b_m1 b -> 0 < b_m2 b -> 0 < b_porb b -> b_dist b < 0 ->
  h_0_of b < 0.
Proof.
  intros H1 H2 Hp Hd. unfold h_0_of, strain.
  pose proof (m_chirp_pos _ _ H1 H2) as Hm.
  set (mc := m_chirp (b_m1 b) (b_m2 b)) in *.
  pose proof (strain_factor_pos mc Hm) as HA.
  pose proof (strain_base_pos mc (b_porb b) Hm Hp) as HB.
  pose proof (np_power_pos _ (2 / 3) HB) as HP.
  assert (Hq : 8 * G / c ^ 2 * mc / b_dist b < 0).
  { unfold Rdiv at 1.
    pose proof (Rinv_lt_0_compat _ Hd) as Hinv.
    set (A := 8 * G / c ^ 2 * mc) in *. nra. }
  nra.
Qed.

(** One mass zero and the other positive gives the strain zero. *)
Lemma h_0_of_zero_mass (b : Binary) :
  b_m1 b * b_m2 b = 0 -> h_0_of b = 0.
Proof.
  intros H0. unfold h_0_of, strain, m_chirp. rewrite H0.
  assert (Hz : np.power 0 (3 / 5) = 0)
    by (unfold np.power; rewrite decide_False by lra; reflexivity).
  rewrite Hz. unfold Rdiv. rewrite !Rmult_0_l, !Rmult_0_r, !Rmult_0_l.
  reflexivity.
Qed.

Lemma ieee_strain_of_catalog (cat : list Binary) :
  ieee.strain_of_catalog cat = Returned (ieee.h_0_of <$> cat).
Proof.
  unfold ieee.strain_of_catalog, ieee.strain_series. cbv zeta.
  rewrite broadcast2_fmap.
  rewrite (broadcast3_fmap ieee.strain
             (fun b => ieee.m_chirp (ieee.Fin (b_m1 b)) (ieee.Fin (b_m2 b)))
             (fun b => ieee.Fin (b_dist b)) (fun b => ieee.Fin (b_porb b))
             cat).
  reflexivity.
Qed.

(** C9, as amended: the strain computation validates nothing and raises
    nothing.  What a non-positive input gives is returned silently in the
    Series [h_0]: an infinite strain for a zero period or a zero distance,
    NaN for a negative period, for masses of opposite sign and for a
    negative total mass, the strain 0 when one mass is zero, a negative
    strain for a negative distance (the other inputs strictly positive).
    For strictly positive masses, period and distance the strain is the
    finite value of the formula, which is strictly positive (rounding
    apart: the product of doubles can still underflow to 0 at extreme
    magnitudes). *)
Theorem strain_returns_and_positive (cat : list Binary) (i : nat)
  (b : Binary) :
  cat !! i = Some b ->
  exists h_0 : list ieee.float,
    ieee.strain_of_catalog cat = Returned h_0
    /\ h_0 !! i = Some (ieee.h_0_of b)
    /\ (0 < b_m1 b -> 0 < b_m2 b -> 0 < b_porb b -> 0 < b_dist b ->
        ieee.h_0_of b = ieee.Fin (h_0_of b) /\ 0 < h_0_of b)
    /\ (0 < b_m1 b -> 0 < b_m2 b -> 0 < b_dist b -> b_porb b = 0 ->
        ieee.h_0_of b = ieee.Inf false)
    /\ (0 < b_m1 b -> 0 < b_m2 b -> 0 < b_porb b -> b_dist b = 0 ->
        ieee.h_0_of b = ieee.Inf false)
    /\ (0 < b_m1 b -> 0 < b_m2 b -> b_porb b < 0 ->
        ieee.h_0_of b = ieee.NaN)
    /\ (b_m1 b * b_m2 b < 0 \/ b_m1 b + b_m2 b < 0 ->
        ieee.h_0_of b = ieee.NaN)
    /\ (b_m1 b * b_m2 b = 0 -> 0 < b_m1 b + b_m2 b ->
        0 < b_porb b -> b_dist b <> 0 ->
        ieee.h_0_of b = ieee.Fin 0)
    /\ (0 < b_m1 b -> 0 < b_m2 b -> 0 < b_porb b -> b_dist b < 0 ->
        ieee.h_0_of b = ieee.Fin (h_0_of b) /\ h_0_of b < 0).
Proof.
  intros Hb. exists (ieee.h_0_of <$> cat).
  split; [apply ieee_strain_of_catalog|].
  split; [rewrite list_lookup_fmap, Hb; reflexivity|].
  split.
  { intros H1 H2 Hp Hd. split; [|apply h_0_of_pos; assumption].
    apply ieee_h_0_finite; nra. }
  split; [apply ieee_h_0_zero_period|].
  split; [apply ieee_h_0_zero_distance|].
  split; [apply ieee_h_0_negative_period|].
  split; [apply ieee_h_0_NaN|].
  split.
  { intros H0 Hs Hp Hd. rewrite ieee_h_0_finite by (assumption || lra).
    rewrite h_0_of_zero_mass by exact H0. reflexivity. }
  intros H1 H2 Hp Hd. split; [|apply h_0_of_negative_distance; assumption].
  apply ieee_h_0_finite; nra.
Qed.

Lemma strain_returns_and_positive_witness :
  exists h_0 : list ieee.float,
    ieee.strain_series [ieee.Fin (0.5 * Msun)] [ieee.Fin (0.5 * Msun)]
      [ieee.Fin 1000] [ieee.Fin (1000 * parsec)]
    = Returned h_0
    /\ h_0 !! 0%nat = Some (ieee.Fin (h_0_of (scenario 0)))
    /\ 0 < h_0_of (scenario 0).
Proof.
  destruct (strain_returns_and_positive [scenario 0] 0 (scenario 0))
    as (h_0 & Hret & Hat & Hpos & _); [reflexivity|].
  destruct Hpos as [Hfin Hgt].
  - unfold scenario, Msun. simpl. lra.
  - unfold scenario, Msun. simpl. lra.
  - simpl. lra.
  - unfold scenario, parsec. simpl. lra.
  - exists h_0. split; [exact Hret|]. split; [|exact Hgt].
    rewrite Hat, Hfin. reflexivity.
Defined.

Lemma LISA_SNR_no_DomainError (jv : Z -> R -> R) (noise : R -> R)
  (m1 m2 porb ecc dist : list R) (N : Z) (Tobs : R) :
  LISA_SNR jv noise m1 m2 porb ecc dist N Tobs <> Raised DomainError.
Proof.
  unfold LISA_SNR, SNR_columns, np.reshape. cbv zeta.
  repeat case_decide; cbv beta iota delta [mbind result_bind];
    discriminate.
Qed.

Lemma LISA_PSD_no_DomainError (jv : Z -> R -> R)
  (m1 m2 porb ecc dist : list R) (N : Z) (Tobs : R) :
  LISA_PSD jv m1 m2 porb ecc dist N Tobs <> Raised DomainError.
Proof. unfold LISA_PSD. cbv zeta. case_decide; discriminate. Qed.

(** C9 as stated fails: with a zero orbital period the strain computation
    returns the strain +inf, and with a negative mass it returns NaN; in
    neither case is a DomainError raised. *)
Lemma strain_zero_period_no_DomainError :
  (b_porb zero_period_source <= 0
   /\ ieee.strain_series [ieee.Fin Msun] [ieee.Fin Msun] [ieee.Fin 0]
        [ieee.Fin parsec]
      = Returned [ieee.Inf false]
   /\ ieee.strain_series [ieee.Fin Msun] [ieee.Fin Msun] [ieee.Fin 0]
        [ieee.Fin parsec]
      <> Raised DomainError)
  /\ (b_m1 negative_mass_source <= 0
      /\ ieee.strain_series [ieee.Fin (- Msun)] [ieee.Fin Msun]
           [ieee.Fin 1000] [ieee.Fin parsec]
         = Returned [ieee.NaN]
      /\ ieee.strain_series [ieee.Fin (- Msun)] [ieee.Fin Msun]
           [ieee.Fin 1000] [ieee.Fin parsec]
         <> Raised DomainError).
Proof.
  assert (Hz : ieee.h_0_of zero_period_source = ieee.Inf false).
  { apply ieee_h_0_zero_period; unfold zero_period_source, Msun, parsec;
      simpl; lra. }
  assert (Hn : ieee.h_0_of negative_mass_source = ieee.NaN).
  { apply ieee_h_0_NaN. left.
    unfold negative_mass_source, Msun. simpl. lra. }
  split.
  - split; [simpl; lra|].
    change (ieee.strain_series [ieee.Fin Msun] [ieee.Fin Msun] [ieee.Fin 0]
              [ieee.Fin parsec])
      with (Returned [ieee.h_0_of zero_period_source] : result _).
    rewrite Hz. split; [reflexivity | discriminate].
  - split; [unfold negative_mass_source, Msun; simpl; lra|].
    change (ieee.strain_series [ieee.Fin (- Msun)] [ieee.Fin Msun]
              [ieee.Fin 1000] [ieee.Fin parsec])
      with (Returned [ieee.h_0_of negative_mass_source] : result _).
    rewrite Hn. split; [reflexivity | discriminate].
Qed.

(** ** ForegroundBinner: the input frame *)

Lemma compute_foreground_frame (psd_dat : psd_frame) (Tobs : R) :
  Tobs <> 0 ->
  (compute_foreground psd_dat Tobs).1
  = mkFrame (samples psd_dat)
      (Some (np.digitize (samples psd_dat).*1
               (np.arange 5e-4 1e-2 (1 / Tobs)))).
Proof.
  intros HT. unfold compute_foreground.
  rewrite decide_False by exact HT. reflexivity.
Qed.

(** C10, as amended: [compute_foreground] leaves the rows (the 'freq' and
    'PSD' columns) of [psd_dat] unchanged, and for a positive [Tobs] it sets
    the column 'digits' of [psd_dat] to the bin index of every sample, adding
    the column when the frame has none; nothing else is written. *)
Theorem compute_foreground_writes_digits (psd_dat : psd_frame) (Tobs : R) :
  samples (compute_foreground psd_dat Tobs).1 = samples psd_dat
  /\ (0 < Tobs ->
      digits (compute_foreground psd_dat Tobs).1
      = Some (np.digitize (samples psd_dat).*1
                (np.arange 5e-4 1e-2 (1 / Tobs)))
      /\ columns (compute_foreground psd_dat Tobs).1
         = ["freq"; "PSD"; "digits"]%string).
Proof.
  split.
  - unfold compute_foreground. case_decide; reflexivity.
  - intros HT. rewrite compute_foreground_frame by lra.
    split; reflexivity.
Qed.

Lemma compute_foreground_writes_digits_witness :
  digits (compute_foreground one_sample_frame Tobs_4yr).1
  = Some (np.digitize [0.002] (np.arange 5e-4 1e-2 (1 / Tobs_4yr)))
  /\ columns (compute_foreground one_sample_frame Tobs_4yr).1
     = ["freq"; "PSD"; "digits"]%string.
Proof.
  apply (compute_foreground_writes_digits one_sample_frame Tobs_4yr).
  unfold Tobs_4yr, sec_in_year. lra.
Defined.

(** C10 as stated fails: after the call the caller's frame has a third
    column. *)
Lemma compute_foreground_mutates_input :
  columns one_sample_frame = ["freq"; "PSD"]%string
  /\ columns (compute_foreground one_sample_frame Tobs_4yr).1
     = ["freq"; "PSD"; "digits"]%string
  /\ (compute_foreground one_sample_frame Tobs_4yr).1 <> one_sample_frame.
Proof.
  assert (HT : Tobs_4yr <> 0) by (unfold Tobs_4yr, sec_in_year; lra).
  split; [reflexivity|].
  rewrite compute_foreground_frame by exact HT.
  split; [reflexivity | discriminate].
Qed.

(** ** [np.arange] and [np.digitize] *)

Lemma ceil_spec (x : R) : IZR (np.ceil x) - 1 < x <= IZR (np.ceil x).
Proof.
  unfold np.ceil. rewrite minus_IZR.
  destruct (archimed (- x)) as [H1 H2]. lra.
Qed.

Lemma length_arange (start stop step : R) :
  length (np.arange start stop step)
  = Z.to_nat (np.ceil ((stop - start) / step)).
Proof. unfold np.arange. rewrite length_fmap. apply length_seq. Qed.

Lemma lookup_arange (start stop step : R) (i : nat) :
  (i < length (np.arange start stop step))%nat ->
  np.arange start stop step !! i = Some (start + INR i * step).
Proof.
  rewrite length_arange. intros Hi. unfold np.arange.
  rewrite list_lookup_fmap, lookup_seq_lt by exact Hi. reflexivity.
Qed.

Lemma arange_lt_stop (start stop step x : R) :
  0 < step -> x ∈ np.arange start stop step -> x < stop.
Proof.
  intros Hstep Hx. apply list_elem_of_lookup in Hx. destruct Hx as [i Hi].
  assert (Hlt : (i < length (np.arange start stop step))%nat)
    by (apply lookup_lt_Some in Hi; exact Hi).
  rewrite lookup_arange in Hi by exact Hlt. injection Hi as <-.
  rewrite length_arange in Hlt.
  destruct (ceil_spec ((stop - start) / step)) as [Hc _].
  assert (Hi : INR i <= IZR (np.ceil ((stop - start) / step)) - 1).
  { rewrite INR_IZR_INZ, <- minus_IZR. apply IZR_le. lia. }
  assert (Hq : INR i < (stop - start) / step) by lra.
  apply (Rmult_lt_compat_r step) in Hq; [|exact Hstep].
  unfold Rdiv in Hq. rewrite Rmult_assoc, Rinv_l, Rmult_1_r in Hq by lra.
  lra.
Qed.

Lemma arange_ge_start (start stop step x : R) :
  0 < step -> x ∈ np.arange start stop step -> start <= x.
Proof.
  intros Hstep Hx. apply list_elem_of_lookup in Hx. destruct Hx as [i Hi].
  assert (Hlt : (i < length (np.arange start stop step))%nat)
    by (apply lookup_lt_Some in Hi; exact Hi).
  rewrite lookup_arange in Hi by exact Hlt. injection Hi as <-.
  pose proof (pos_INR i) as Hpos.
  assert (0 <= INR i * step) by (apply Rmult_le_pos; lra). lra.
Qed.

Lemma arange_nonempty (start stop step : R) :
  0 < step -> start < stop ->
  exists bins, np.arange start stop step = start :: bins.
Proof.
  intros Hstep Hlt. unfold np.arange.
  destruct (ceil_spec ((stop - start) / step)) as [_ Hc].
  assert (Hq : 0 < (stop - start) / step)
    by (apply Rdiv_lt_0_compat; lra).
  assert (Hpos : (0 < np.ceil ((stop - start) / step))%Z)
    by (apply lt_IZR; lra).
  destruct (Z.to_nat (np.ceil ((stop - start) / step))) as [|n] eqn:Hn;
    [lia|].
  simpl. eexists. f_equal. simpl. lra.
Qed.

Lemma searchsorted_le_length (bins : list R) (x : R) :
  (np.searchsorted_right bins x <= length bins)%nat.
Proof.
  induction bins as [|b bins IH]; simpl; [lia|]. case_decide; lia.
Qed.

Lemma searchsorted_all_le (bins : list R) (x : R) :
  Forall (fun b => b <= x) bins ->
  np.searchsorted_right bins x = length bins.
Proof.
  induction 1 as [|b bins Hb _ IH]; simpl; [reflexivity|].
  rewrite decide_True by exact Hb. rewrite IH. reflexivity.
Qed.

Lemma searchsorted_pos (b : R) (bins : list R) (x : R) :
  (1 <= np.searchsorted_right (b :: bins) x)%nat <-> b <= x.
Proof. simpl. case_decide; split; intros; lia || lra || assumption. Qed.

(** ** [groupby(...).sum()] *)

Lemma sum_cons (x : R) (xs : list R) : np.sum (x :: xs) = x + np.sum xs.
Proof. reflexivity. Qed.

Lemma total_of_cons (d k : nat) (v : R) (kvs : list (nat * R)) :
  total_of d ((k, v) :: kvs)
  = (if decide (k = d) then v else 0) + total_of d kvs.
Proof. reflexivity. Qed.

Lemma total_of_group_add (d k : nat) (v : R) (acc : list (nat * R)) :
  total_of d (pd.group_add k v acc)
  = (if decide (k = d) then v else 0) + total_of d acc.
Proof.
  induction acc as [|[k' s] acc IH]; simpl; [reflexivity|].
  repeat case_decide; subst; rewrite ?total_of_cons, ?IH; simpl;
    repeat case_decide; try lia; try congruence; lra.
Qed.

Lemma total_of_foldl (d : nat) (kvs acc : list (nat * R)) :
  total_of d (foldl (fun acc kv => pd.group_add kv.1 kv.2 acc) acc kvs)
  = total_of d acc + total_of d kvs.
Proof.
  revert acc. induction kvs as [|[k v] kvs IH]; intros acc; simpl.
  - unfold total_of at 3. simpl. lra.
  - rewrite IH, total_of_group_add, total_of_cons. simpl. lra.
Qed.

Lemma total_of_groupby_sum (d : nat) (keys : list nat) (vals : list R) :
  total_of d (pd.groupby_sum keys vals) = total_of d (zip keys vals).
Proof.
  unfold pd.groupby_sum. rewrite total_of_foldl.
  unfold total_of at 1. simpl. lra.
Qed.

Lemma group_add_keys (P : nat -> Prop) (k : nat) (v : R)
  (acc : list (nat * R)) :
  P k -> Forall P acc.*1 -> Forall P (pd.group_add k v acc).*1.
Proof.
  intros Hk. induction acc as [|[k' s] acc IH]; intros Hacc; simpl.
  - constructor; [exact Hk | constructor].
  - inversion Hacc as [|? ? Hk' Hacc']; subst.
    repeat case_decide; simpl; repeat constructor; auto.
Qed.

Lemma group_add_sorted (k : nat) (v : R) (acc : list (nat * R)) :
  StronglySorted lt acc.*1 -> StronglySorted lt (pd.group_add k v acc).*1.
Proof.
  induction acc as [|[k' s] acc IH]; intros Hs; simpl.
  - repeat constructor.
  - inversion Hs as [|? ? Hs' Hall]; subst.
    case_decide as Hlt; [|case_decide as Heq]; simpl.
    + constructor; [exact Hs|]. constructor; [exact Hlt|].
      eapply Forall_impl; [exact Hall|]. simpl. intros; lia.
    + subst. constructor; assumption.
    + constructor; [apply IH; exact Hs'|].
      apply group_add_keys; [lia | exact Hall].
Qed.

Lemma groupby_sum_invariant (P : nat -> Prop) (kvs acc : list (nat * R)) :
  Forall P kvs.*1 ->
  Forall P acc.*1 ->
  StronglySorted lt acc.*1 ->
  let out := foldl (fun acc kv => pd.group_add kv.1 kv.2 acc) acc kvs in
  Forall P out.*1 /\ StronglySorted lt out.*1
  /\ (length out <= length acc + length kvs)%nat.
Proof.
  revert acc. induction kvs as [|[k v] kvs IH]; intros acc Hk Hacc Hs; simpl.
  - split; [exact Hacc|]. split; [exact Hs | lia].
  - inversion Hk as [|? ? Hk0 Hk']; subst.
    destruct (IH (pd.group_add k v acc) Hk'
                (group_add_keys P k v acc Hk0 Hacc)
                (group_add_sorted k v acc Hs)) as (H1 & H2 & H3).
    split; [exact H1|]. split; [exact H2|].
    assert (length (pd.group_add k v acc) <= S (length acc))%nat.
    { clear. induction acc as [|[k' s] acc IH]; simpl; [lia|].
      repeat case_decide; simpl; lia. }
    simpl in H3. lia.
Qed.

Lemma sorted_keys_NoDup (acc : list (nat * R)) :
  StronglySorted lt acc.*1 -> NoDup acc.*1.
Proof.
  induction acc as [|[k s] acc IH]; simpl; intros Hs; [constructor|].
  inversion Hs as [|? ? Hs' Hall]; subst. constructor; [|apply IH; exact Hs'].
  intros Hin. rewrite Forall_forall in Hall. specialize (Hall k Hin). lia.
Qed.

Lemma total_of_absent (d : nat) (acc : list (nat * R)) :
  d ∉ acc.*1 -> total_of d acc = 0.
Proof.
  induction acc as [|[k s] acc IH]; simpl; intros Hd; [reflexivity|].
  rewrite not_elem_of_cons in Hd. destruct Hd as [Hne Hd].
  rewrite total_of_cons, decide_False by congruence. rewrite IH by exact Hd.
  lra.
Qed.

Lemma total_of_present (acc : list (nat * R)) (j d : nat) (s : R) :
  NoDup acc.*1 -> acc !! j = Some (d, s) -> total_of d acc = s.
Proof.
  revert j. induction acc as [|[k s'] acc IH]; intros j Hnd Hj;
    [discriminate|].
  simpl in Hnd. inversion Hnd as [|? ? Hnotin Hnd']; subst.
  rewrite total_of_cons. destruct j as [|j]; simpl in Hj.
  - injection Hj as -> ->. rewrite decide_True by reflexivity.
    rewrite total_of_absent by exact Hnotin. lra.
  - rewrite decide_False.
    + rewrite (IH j Hnd' Hj). lra.
    + intros ->. apply Hnotin. apply list_elem_of_fmap.
      exists (d, s). split; [reflexivity|].
      apply list_elem_of_lookup. eauto.
Qed.

(** Assigning the group sums at their keys files every total at its index. *)
Lemma put_group_totals (n : nat) (acc : list (nat * R)) :
  NoDup acc.*1 ->
  Forall (fun k => k < n)%nat acc.*1 ->
  np.put (np.zeros n) acc.*1 acc.*2
  = (fun d => total_of d acc) <$> seq 0 n.
Proof.
  intros Hnd Hlt. apply list_eq. intros d.
  assert (Hz : length (np.zeros n) = n) by apply length_replicate.
  destruct (decide (d < n)%nat) as [Hd|Hd].
  - rewrite list_lookup_fmap, lookup_seq_lt by exact Hd. simpl.
    destruct (decide (d ∈ acc.*1)) as [Hin|Hnotin].
    + apply list_elem_of_lookup in Hin. destruct Hin as [j Hj].
      rewrite list_lookup_fmap in Hj.
      destruct (acc !! j) as [[k s]|] eqn:Hacc; [|discriminate].
      simpl in Hj. injection Hj as ->.
      rewrite (total_of_present acc j d s Hnd Hacc).
      apply (lookup_put _ _ _ d j); auto.
      * rewrite list_lookup_fmap, Hacc. reflexivity.
      * rewrite list_lookup_fmap, Hacc. reflexivity.
      * rewrite Hz. exact Hd.
    + rewrite lookup_put_notin by exact Hnotin.
      rewrite total_of_absent by exact Hnotin.
      apply lookup_replicate_2. exact Hd.
  - rewrite list_lookup_fmap, lookup_seq_ge by lia. simpl.
    apply lookup_ge_None_2. rewrite length_put, Hz. lia.
Qed.

(** ** ForegroundBinner: the spectrum *)

Lemma zip_digits_samples (g : R -> nat) (l : list (R * R)) :
  zip (g <$> l.*1) l.*2 = (fun s => (g s.1, s.2)) <$> l.
Proof.
  induction l as [|[f p] l IH]; [reflexivity|].
  csimpl. f_equal. exact IH.
Qed.

Lemma sum_fmap_plus {A : Type} (a b : A -> R) (l : list A) :
  np.sum ((fun x => a x + b x) <$> l) = np.sum (a <$> l) + np.sum (b <$> l).
Proof.
  induction l as [|x l IH]; [unfold np.sum; simpl; lra|].
  rewrite !fmap_cons, !sum_cons, IH. lra.
Qed.

Lemma sum_indicator (k : nat) (v : R) (s n : nat) :
  np.sum ((fun d => if decide (k = d) then v else 0) <$> seq s n)
  = if decide (s <= k < s + n)%nat then v else 0.
Proof.
  revert s. induction n as [|n IH]; intros s.
  - rewrite decide_False by lia. reflexivity.
  - change (seq s (S n)) with (s :: seq (S s) n).
    rewrite fmap_cons, sum_cons, IH.
    repeat case_decide; try lia; lra.
Qed.

Lemma sum_totals (kvs : list (nat * R)) (s n : nat) :
  np.sum ((fun d => total_of d kvs) <$> seq s n)
  = np.sum ((fun kv => if decide (s <= kv.1 < s + n)%nat then kv.2 else 0)
              <$> kvs).
Proof.
  induction kvs as [|[k v] kvs IH].
  - unfold total_of. change (np.sum ((fun _ => _) <$> [])) with 0.
    induction (seq s n) as [|d ds IHd]; [reflexivity|].
    rewrite fmap_cons, sum_cons, IHd. unfold np.sum. simpl. lra.
  - rewrite fmap_cons, sum_cons, <- IH. simpl fst. simpl snd.
    rewrite <- (sum_indicator k v s n), <- sum_fmap_plus.
    reflexivity.
Qed.

Lemma compute_foreground_result (psd_dat : psd_frame) (Tobs : R) :
  Tobs <> 0 ->
  let bins := np.arange 5e-4 1e-2 (1 / Tobs) in
  let power_sum :=
    pd.groupby_sum (np.digitize (samples psd_dat).*1 bins)
      (samples psd_dat).*2 in
  (compute_foreground psd_dat Tobs).2
  = (power_tot ←
       np.put_broadcast (np.zeros (length bins + 1))
         (np.slice_to power_sum.*1 (Z.of_nat (length bins) - 1))
         power_sum.*2;
     Returned (zip bins (drop 1 power_tot))).
Proof.
  intros HT. unfold compute_foreground.
  rewrite decide_False by exact HT. reflexivity.
Qed.

Section Foreground.

Variable psd_dat : psd_frame.
Variable Tobs : R.
Hypothesis HT : 0 < Tobs.

Let bins := np.arange 5e-4 1e-2 (1 / Tobs).
Let L := length bins.
Let kvs := zip (np.digitize (samples psd_dat).*1 bins) (samples psd_dat).*2.

Lemma binwidth_pos : 0 < 1 / Tobs.
Proof. apply Rdiv_lt_0_compat; lra. Qed.

Lemma bins_head : exists rest, bins = 5e-4 :: rest.
Proof. apply arange_nonempty; [apply binwidth_pos | lra]. Qed.

Lemma bins_below_stop : Forall (fun b => b < 1e-2) bins.
Proof.
  apply Forall_forall. intros b Hb.
  apply (arange_lt_stop 5e-4 1e-2 (1 / Tobs)); [apply binwidth_pos | exact Hb].
Qed.

Lemma digit_below (f : R) : f < 5e-4 -> np.searchsorted_right bins f = 0%nat.
Proof.
  intros Hf. destruct bins_head as [rest ->]. simpl.
  rewrite decide_False by lra. reflexivity.
Qed.

Lemma digit_above (f : R) : 1e-2 <= f -> np.searchsorted_right bins f = L.
Proof.
  intros Hf. apply searchsorted_all_le.
  eapply Forall_impl; [apply bins_below_stop|]. simpl. intros b Hb. lra.
Qed.

Lemma digit_pos (f : R) :
  (1 <= np.searchsorted_right bins f < 1 + L)%nat <-> 5e-4 <= f.
Proof.
  pose proof (searchsorted_le_length bins f) as Hle. fold L in Hle.
  destruct bins_head as [rest Hb]. rewrite Hb in Hle |- *.
  pose proof (searchsorted_pos 5e-4 rest f) as Hp. split.
  - intros [H1 _]. apply Hp. exact H1.
  - intros Hf. split; [apply Hp; exact Hf | lia].
Qed.

Lemma foreground_total :
  np.sum ((fun d => total_of d kvs) <$> seq 1 L)
  = psd_where (fun f => 5e-4 <= f) (samples psd_dat).
Proof.
  rewrite sum_totals. unfold kvs, np.digitize, psd_where.
  rewrite zip_digits_samples, <- list_fmap_compose.
  f_equal. apply list_fmap_ext. intros i [f p] _. simpl.
  pose proof (digit_pos f) as Hd.
  repeat case_decide; tauto || reflexivity.
Qed.

(** Fewer samples than bins: then fewer populated bins than bins, and the
    assignment of line 294 has as many values as indices. *)
Hypothesis Hfew : (length (samples psd_dat) + 1 <= L)%nat.

Lemma foreground_rows :
  (compute_foreground psd_dat Tobs).2
  = Returned (zip bins ((fun d => total_of d kvs) <$> seq 1 L)).
Proof.
  rewrite compute_foreground_result by lra.
  cbv zeta. fold bins. fold L.
  set (power_sum :=
         pd.groupby_sum (np.digitize (samples psd_dat).*1 bins)
           (samples psd_dat).*2).
  assert (Hkeys : (zip (np.digitize (samples psd_dat).*1 bins)
                     (samples psd_dat).*2).*1
                  = np.digitize (samples psd_dat).*1 bins).
  { apply fst_zip. unfold np.digitize. rewrite !length_fmap. lia. }
  destruct (groupby_sum_invariant (fun k => k < L + 1)%nat
              (zip (np.digitize (samples psd_dat).*1 bins)
                 (samples psd_dat).*2) [])
    as (Hlt & Hsorted & Hlen).
  { rewrite Hkeys. unfold np.digitize. apply Forall_fmap, Forall_forall.
    intros f _. simpl. pose proof (searchsorted_le_length bins f). lia. }
  { constructor. }
  { constructor. }
  fold (pd.groupby_sum (np.digitize (samples psd_dat).*1 bins)
          (samples psd_dat).*2) in Hlt, Hsorted, Hlen.
  fold power_sum in Hlt, Hsorted, Hlen.
  rewrite length_zip in Hlen. unfold np.digitize in Hlen.
  rewrite !length_fmap in Hlen. simpl in Hlen.
  assert (Hslice : np.slice_to power_sum.*1 (Z.of_nat L - 1) = power_sum.*1).
  { unfold np.slice_to. rewrite decide_False by lia.
    apply take_ge. rewrite length_fmap. lia. }
  rewrite Hslice. unfold np.put_broadcast.
  rewrite decide_True by (rewrite !length_fmap; reflexivity).
  cbv beta iota delta [mbind result_bind]. f_equal. f_equal.
  rewrite put_group_totals;
    [|apply sorted_keys_NoDup; exact Hsorted | exact Hlt].
  rewrite <- fmap_drop. replace (L + 1)%nat with (S L) by lia. simpl.
  apply list_fmap_ext. intros i d _. apply total_of_groupby_sum.
Qed.

End Foreground.

Lemma arange_length_ge (start stop step : R) (n : nat) :
  INR n <= (stop - start) / step ->
  (n <= length (np.arange start stop step))%nat.
Proof.
  intros Hn. rewrite length_arange.
  destruct (ceil_spec ((stop - start) / step)) as [_ Hc].
  assert (Hz : (Z.of_nat n <= np.ceil ((stop - start) / step))%Z).
  { apply le_IZR. rewrite <- INR_IZR_INZ. lra. }
  lia.
Qed.

Lemma bins_4yr_many :
  (3 <= length (np.arange 5e-4 1e-2 (1 / Tobs_4yr)))%nat.
Proof.
  apply arange_length_ge. unfold Tobs_4yr, sec_in_year. simpl INR.
  replace ((1e-2 - 5e-4) / (1 / (4 * 3.15569e7)))
    with ((1e-2 - 5e-4) * (4 * 3.15569e7)) by (field; lra).
  lra.
Qed.

Lemma Tobs_4yr_pos : 0 < Tobs_4yr.
Proof. unfold Tobs_4yr, sec_in_year. lra. Qed.

Lemma psd_where_split (samples : list (R * R)) :
  psd_where (fun f => 5e-4 <= f) samples
  = psd_where in_band samples + psd_where (fun f => 1e-2 <= f) samples.
Proof.
  unfold psd_where. rewrite <- sum_fmap_plus. f_equal.
  apply list_fmap_ext. intros i [f p] _. simpl. unfold in_band.
  repeat case_decide; lra.
Qed.

(** C7 (the code departs from it): when the call returns, the row of bin
    [d] (d = 1 .. number of bins) carries the total PSD of the samples whose
    bin index is [d].  A sample below 5e-4 Hz has index 0 and reaches no row,
    but a sample at or above 1e-2 Hz has the index of the last bin and is
    added to the last row, where the claim excludes it. *)
Theorem foreground_overflow_in_last_bin (psd_dat : psd_frame) (Tobs : R) :
  0 < Tobs ->
  (length (samples psd_dat) + 1
   <= length (np.arange 5e-4 1e-2 (1 / Tobs)))%nat ->
  let bins := np.arange 5e-4 1e-2 (1 / Tobs) in
  let kvs := zip (np.digitize (samples psd_dat).*1 bins) (samples psd_dat).*2 in
  (compute_foreground psd_dat Tobs).2
  = Returned (zip bins ((fun d => total_of d kvs) <$> seq 1 (length bins)))
  /\ (forall f, f < 5e-4 -> np.searchsorted_right bins f = 0%nat)
  /\ (forall f, 1e-2 <= f -> np.searchsorted_right bins f = length bins).
Proof.
  intros HT Hfew bins kvs. split; [|split].
  - apply foreground_rows; assumption.
  - intros f Hf. apply digit_below; assumption.
  - intros f Hf. apply digit_above; assumption.
Qed.

Lemma foreground_overflow_in_last_bin_witness :
  let bins := np.arange 5e-4 1e-2 (1 / Tobs_4yr) in
  (compute_foreground (mkFrame [(0.5, 10)] None) Tobs_4yr).2
  = Returned
      (zip bins
         ((fun d => total_of d [(length bins, 10)]) <$> seq 1 (length bins)))
  /\ total_of (length bins) [(length bins, 10)] = 10.
Proof.
  intros bins.
  destruct (foreground_overflow_in_last_bin (mkFrame [(0.5, 10)] None)
              Tobs_4yr) as (Hrows & _ & Hhigh).
  - apply Tobs_4yr_pos.
  - pose proof bins_4yr_many. simpl. lia.
  - split.
    + rewrite Hrows. simpl. rewrite Hhigh by lra. reflexivity.
    + unfold total_of. simpl. rewrite decide_True by reflexivity. lra.
Defined.

(** C8 (the code departs from it): when the call returns, the PSD column of
    the spectrum sums to the PSD of all samples at or above 5e-4 Hz, that
    is the in-band total plus the PSD of every sample at or above 1e-2 Hz,
    where the claim has the in-band total alone. *)
Theorem foreground_total_includes_overflow (psd_dat : psd_frame) (Tobs : R) :
  0 < Tobs ->
  (length (samples psd_dat) + 1
   <= length (np.arange 5e-4 1e-2 (1 / Tobs)))%nat ->
  exists rows : list (R * R),
    (compute_foreground psd_dat Tobs).2 = Returned rows
    /\ np.sum rows.*2
       = psd_where in_band (samples psd_dat)
         + psd_where (fun f => 1e-2 <= f) (samples psd_dat).
Proof.
  intros HT Hfew. eexists. split; [apply foreground_rows; assumption|].
  rewrite snd_zip by (rewrite length_fmap, length_seq; lia).
  rewrite foreground_total by exact HT. apply psd_where_split.
Qed.

Lemma foreground_total_includes_overflow_witness :
  exists rows : list (R * R),
    (compute_foreground overflow_frame Tobs_4yr).2 = Returned rows
    /\ np.sum rows.*2 = 11
    /\ psd_where in_band (samples overflow_frame) = 1.
Proof.
  destruct (foreground_total_includes_overflow overflow_frame Tobs_4yr)
    as (rows & Hrows & Hsum).
  - apply Tobs_4yr_pos.
  - pose proof bins_4yr_many. simpl. lia.
  - assert (Hin : psd_where in_band (samples overflow_frame) = 1).
    { unfold psd_where, in_band. simpl.
      rewrite decide_True by lra. rewrite decide_False by lra. lra. }
    assert (Hover : psd_where (fun f => 1e-2 <= f) (samples overflow_frame)
                    = 10).
    { unfold psd_where. simpl.
      rewrite decide_False by lra. rewrite decide_True by lra. lra. }
    exists rows. split; [exact Hrows|]. split; [|exact Hin].
    rewrite Hsum, Hin, Hover. lra.
Defined.

(** ** Examples on the scenario of section 8 *)

Lemma exp_le (a b : R) : a <= b -> exp a <= exp b.
Proof.
  intros [Hlt| ->]; [left; apply exp_increasing; exact Hlt | right; reflexivity].
Qed.

Lemma Rpower_unit_interval (x y : R) :
  0 < x <= 1 -> 0 <= y <= 1 -> x <= Rpower x y <= 1.
Proof.
  intros [Hx0 Hx1] [Hy0 Hy1].
  assert (Hln : ln x <= 0).
  { destruct Hx1 as [Hlt| ->]; [|rewrite ln_1; lra].
    pose proof (ln_increasing x 1 Hx0 Hlt) as H. rewrite ln_1 in H. lra. }
  unfold Rpower. split.
  - rewrite <- (exp_ln x Hx0) at 1. apply exp_le. nra.
  - rewrite <- exp_0. apply exp_le. nra.
Qed.

Lemma Rpower_2_fifth : 1 <= Rpower 2 (1 / 5) <= 2.
Proof.
  split.
  - apply Rle_trans with (Rpower 2 0); [|apply Rle_Rpower; lra].
    rewrite Rpower_O by lra. lra.
  - apply Rle_trans with (Rpower 2 1); [apply Rle_Rpower; lra|].
    rewrite Rpower_1 by lra. lra.
Qed.

(** For equal masses the chirp mass is m / 2^(1/5). *)
Lemma m_chirp_equal_masses (m : R) :
  0 < m -> m_chirp m m = m / Rpower 2 (1 / 5).
Proof.
  intros Hm. unfold m_chirp, np.power.
  rewrite !decide_True by nra.
  replace (m + m) with (2 * m) by lra.
  rewrite <- (Rpower_mult_distr 2 m) by lra.
  rewrite <- (Rpower_mult_distr m m) by lra.
  rewrite <- Rpower_plus.
  replace (3 / 5 + 3 / 5) with (1 + 1 / 5) by lra.
  rewrite Rpower_plus, Rpower_1 by lra.
  pose proof (exp_pos (1 / 5 * ln m)) as H1.
  pose proof (exp_pos (1 / 5 * ln 2)) as H2.
  unfold Rpower. field. lra.
Qed.

Lemma PI_gt_3 : 3 < PI.
Proof. pose proof PI2_3_2. lra. Qed.

Lemma scenario_m_chirp_bounds (ecc : R) :
  4.9e29 <= m_chirp (b_m1 (scenario ecc)) (b_m2 (scenario ecc)) <= 1e30.
Proof.
  simpl. rewrite m_chirp_equal_masses by (unfold Msun; lra).
  pose proof Rpower_2_fifth as [H1 H2].
  assert (Hq : / 2 <= / Rpower 2 (1 / 5) <= 1).
  { split; [apply Rinv_le_contravar; lra|].
    apply Rle_trans with (/ 1); [apply Rinv_le_contravar; lra|].
    rewrite Rinv_1. lra. }
  unfold Msun, Rdiv. lra.
Qed.

(** A lower bound on the strain of the scenario (about 1e-21 in fact). *)
Lemma scenario_h_0_lower (ecc : R) : 6e-25 <= h_0_of (scenario ecc).
Proof.
  unfold h_0_of, strain.
  pose proof (scenario_m_chirp_bounds ecc) as [Hlo Hhi].
  set (mc := m_chirp (b_m1 (scenario ecc)) (b_m2 (scenario ecc))) in *.
  simpl b_dist. simpl b_porb.
  pose proof PI_gt_3 as Hpi3. pose proof PI_4 as Hpi4.
  set (X := G / c ^ 3 * 2 * PI * (1 / 1000) * mc).
  assert (HK : 4.9e-39 <= G / c ^ 3 * 2 * (1 / 1000) <= 5e-39)
    by (unfold G, c; lra).
  assert (HX : 7e-9 <= X <= 1).
  { unfold X.
    replace (G / c ^ 3 * 2 * PI * (1 / 1000) * mc)
      with (G / c ^ 3 * 2 * (1 / 1000) * (PI * mc)) by (unfold Rdiv; ring).
    assert (1.47e30 <= PI * mc <= 4e30) by nra. nra. }
  assert (Hpw : 7e-9 <= np.power X (2 / 3)).
  { unfold np.power. rewrite decide_True by lra.
    pose proof (Rpower_unit_interval X (2 / 3)) as H. lra. }
  assert (HA : 9e-17 <= 8 * G / c ^ 2 * mc / (1000 * parsec)).
  { replace (8 * G / c ^ 2 * mc / (1000 * parsec))
      with (8 * G / c ^ 2 / (1000 * parsec) * mc) by (unfold Rdiv; ring).
    assert (1.9e-46 <= 8 * G / c ^ 2 / (1000 * parsec))
      by (unfold G, c, parsec; lra).
    nra. }
  nra.
Qed.

Lemma scenario_circular_value :
  1 < snr_squared_circ_spec (flat_noise 1e-21) (scenario 0) Tobs_4yr.
Proof.
  unfold snr_squared_circ_spec, flat_noise.
  pose proof (scenario_h_0_lower 0) as Hh.
  assert (Hsq : 3.6e-49 <= h_0_of (scenario 0) ^ 2) by nra.
  unfold Tobs_4yr, sec_in_year.
  replace (h_0_of (scenario 0) ^ 2 * (1 / 4) * (4 * 3.15569e7) / 1e-21 ^ 2)
    with (h_0_of (scenario 0) ^ 2 * 3.15569e49) by (field; lra).
  lra.
Qed.

Lemma scenario_stored_SNR (jv : Z -> R -> R) (N : Z) :
  stored_SNR jv (flat_noise 1e-21) N Tobs_4yr (scenario 0)
  = snr_squared_circ_spec (flat_noise 1e-21) (scenario 0) Tobs_4yr.
Proof.
  unfold stored_SNR. rewrite decide_False by (simpl; lra).
  unfold snr_squared_circ_spec, Rdiv. ring.
Qed.

Lemma LISA_SNR_circular_source_witness :
  exists rows : list (R * R),
    LISA_SNR_catalog jv_sample (flat_noise 1e-21) [scenario 0; scenario 0] 10
      Tobs_4yr
    = Returned rows
    /\ rows
       = [(2 / 1000,
           snr_squared_circ_spec (flat_noise 1e-21) (scenario 0) Tobs_4yr);
          (2 / 1000,
           snr_squared_circ_spec (flat_noise 1e-21) (scenario 0) Tobs_4yr)]
    /\ (2 / 1000,
        snr_squared_circ_spec (flat_noise 1e-21) (scenario 0) Tobs_4yr)
         ∈ rows
    /\ sqrt (snr_squared_circ_spec (flat_noise 1e-21) (scenario 0) Tobs_4yr)
       < snr_squared_circ_spec (flat_noise 1e-21) (scenario 0) Tobs_4yr.
Proof.
  pose proof scenario_circular_value as Hv.
  destruct (LISA_SNR_circular_source jv_sample (flat_noise 1e-21)
              [scenario 0; scenario 0] 10 Tobs_4yr 0 (scenario 0))
    as (gw & SNR & Hcols & Hgw & Hsnr & Hne & Htab & Hrow).
  - lia.
  - reflexivity.
  - simpl. lra.
  - destruct Hrow as [Hin Hlt]; [simpl; lia | exact Hv |].
    exists (SNR_threshold gw SNR). split; [exact Htab|].
    split; [|split; [exact Hin | exact Hlt]].
    pose proof (LISA_SNR_catalog_filter jv_sample (flat_noise 1e-21)
                  [scenario 0; scenario 0] 10 Tobs_4yr ltac:(lia)
                  ltac:(simpl; lia)) as Hf.
    rewrite Htab in Hf. injection Hf as Hf. rewrite Hf.
    assert (Hs : stored_SNR jv_sample (flat_noise 1e-21) 10 Tobs_4yr
                   (scenario 0)
                 = snr_squared_circ_spec (flat_noise 1e-21) (scenario 0)
                     Tobs_4yr)
      by apply scenario_stored_SNR.
    assert (Hg : stored_gw_freq (scenario 0) = 2 / 1000).
    { unfold stored_gw_freq. rewrite decide_False by (simpl; lra).
      reflexivity. }
    rewrite Hs, Hg.
    rewrite !filter_cons_True by exact Hv. reflexivity.
Defined.

Lemma sum_nonneg (xs : list R) :
  Forall (fun x => 0 <= x) xs -> 0 <= np.sum xs.
Proof.
  induction 1 as [|x xs Hx _ IH]; [unfold np.sum; simpl; lra|].
  rewrite sum_cons. lra.
Qed.

(** With the stand-in [jv_sample] the first harmonic of an orbit of
    eccentricity 0.9 has weight above one half. *)
Lemma scenario_first_harmonic : 0.5 <= g_spec jv_sample 1 0.9.
Proof.
  unfold g_spec, jv_sample. cbv zeta.
  rewrite !minus_IZR, !plus_IZR. lra.
Qed.

Lemma scenario_eccentric_value :
  1 < snr_ecc_spec jv_sample (flat_noise 1e-21) (scenario 0.9) 10 Tobs_4yr.
Proof.
  unfold snr_ecc_spec.
  rewrite seqZ_cons by lia. rewrite fmap_cons, sum_cons.
  set (rest := np.sum _).
  assert (Hrest : 0 <= rest).
  { unfold rest. apply sum_nonneg. apply Forall_fmap, Forall_forall.
    intros n Hn. apply elem_of_seqZ in Hn. simpl.
    pose proof (pow2_ge_0 (h_0_of (scenario 0.9))) as Hh.
    pose proof (g_fac_entry_nonneg jv_sample n 0.9) as Hg.
    rewrite g_fac_entry_spec in Hg.
    pose proof Tobs_4yr_pos as HT.
    unfold flat_noise.
    apply Rmult_le_pos; [|apply Rlt_le, Rinv_0_lt_compat; lra].
    apply Rmult_le_pos; [apply Rmult_le_pos; lra|].
    apply Hg; [lia | lra]. }
  pose proof (scenario_h_0_lower 0.9) as Hh.
  pose proof scenario_first_harmonic as Hg.
  assert (Hsq : 3.6e-49 <= h_0_of (scenario 0.9) ^ 2) by nra.
  assert (HhT : 4.5e-41 <= h_0_of (scenario 0.9) ^ 2 * Tobs_4yr)
    by (unfold Tobs_4yr, sec_in_year; nra).
  assert (Hterm : 2 <= h_0_of (scenario 0.9) ^ 2 * Tobs_4yr
                       * g_spec jv_sample 1 (b_ecc (scenario 0.9))
                       / flat_noise 1e-21
                           (IZR 1 / b_porb (scenario 0.9)) ^ 2).
  { unfold flat_noise. simpl b_ecc.
    set (a := h_0_of (scenario 0.9) ^ 2 * Tobs_4yr) in *.
    set (g := g_spec jv_sample 1 0.9) in *.
    assert (Hag : 2.25e-41 <= a * g) by nra.
    replace (a * g / 1e-21 ^ 2) with (a * g * 1e42) by (field; lra).
    lra. }
  pose proof sqrt_1 as H1.
  assert (Hlt : sqrt 1 < sqrt
                  (h_0_of (scenario 0.9) ^ 2 * Tobs_4yr
                   * g_spec jv_sample 1 (b_ecc (scenario 0.9))
                   / flat_noise 1e-21 (IZR 1 / b_porb (scenario 0.9)) ^ 2
                   + rest))
    by (apply sqrt_lt_1_alt; lra).
  lra.
Qed.

Lemma LISA_SNR_eccentric_source_witness :
  exists gw_freq SNR : list R,
    SNR_columns_catalog jv_sample (flat_noise 1e-21)
      [scenario 0; scenario 0.9] 10 Tobs_4yr
    = Returned (gw_freq, SNR)
    /\ gw_freq !! 1%nat
       = Some (peak_gw_freq_spec (0.5 * Msun) (0.5 * Msun) 0.9 1000)
    /\ SNR !! 1%nat
       = Some (snr_ecc_spec jv_sample (flat_noise 1e-21) (scenario 0.9) 10
                 Tobs_4yr)
    /\ LISA_SNR_catalog jv_sample (flat_noise 1e-21)
         [scenario 0; scenario 0.9] 10 Tobs_4yr
       = Returned (SNR_threshold gw_freq SNR)
    /\ (peak_gw_freq_spec (0.5 * Msun) (0.5 * Msun) 0.9 1000,
        snr_ecc_spec jv_sample (flat_noise 1e-21) (scenario 0.9) 10
          Tobs_4yr)
         ∈ SNR_threshold gw_freq SNR.
Proof.
  destruct (LISA_SNR_eccentric_source jv_sample (flat_noise 1e-21)
              [scenario 0; scenario 0.9] 10 Tobs_4yr 1 (scenario 0.9))
    as (gw & SNR & Hcols & Hsnr & Hgw & Htab & _ & Hrow).
  - lia.
  - reflexivity.
  - simpl. lra.
  - exists gw, SNR. split; [exact Hcols|]. split; [exact Hgw|].
    split; [exact Hsnr|]. split; [exact Htab|].
    apply Hrow; [simpl; lia | apply scenario_eccentric_value].
Defined.

Lemma LISA_SNR_single_source_empty_witness :
  1 < stored_SNR jv_sample (flat_noise 1e-21) 10 Tobs_4yr (scenario 0)
  /\ SNR_columns_catalog jv_sample (flat_noise 1e-21) [scenario 0] 10
       Tobs_4yr
     = Returned
         ([stored_gw_freq (scenario 0)],
          [stored_SNR jv_sample (flat_noise 1e-21) 10 Tobs_4yr (scenario 0)])
  /\ LISA_SNR_catalog jv_sample (flat_noise 1e-21) [scenario 0] 10 Tobs_4yr
     = Returned [].
Proof.
  split.
  - rewrite scenario_stored_SNR. apply scenario_circular_value.
  - apply (LISA_SNR_single_source_empty jv_sample (flat_noise 1e-21)
             (scenario 0) 10 Tobs_4yr).
    lia.
Defined.

Lemma LISA_SNR_rows_above_threshold_witness :
  exists rows : list (R * R),
    LISA_SNR_catalog jv_sample (flat_noise 1e-21) [scenario 0; scenario 0] 10
      Tobs_4yr
    = Returned rows
    /\ length rows = 2%nat
    /\ Forall (fun r => 1 < r.2) rows.
Proof.
  pose proof (LISA_SNR_rows_above_threshold jv_sample (flat_noise 1e-21)
                (b_m1 <$> [scenario 0; scenario 0])
                (b_m2 <$> [scenario 0; scenario 0])
                (b_porb <$> [scenario 0; scenario 0])
                (b_ecc <$> [scenario 0; scenario 0])
                (b_dist <$> [scenario 0; scenario 0]) 10 Tobs_4yr) as Hall.
  assert (Heq := LISA_SNR_catalog_eq jv_sample (flat_noise 1e-21)
                   [scenario 0; scenario 0] 10 Tobs_4yr ltac:(lia)).
  unfold LISA_SNR_catalog in Heq. rewrite Heq in Hall.
  destruct Hall as [Hall _].
  eexists. split; [exact Heq|]. split; [|exact Hall].
  rewrite SNR_threshold_long by (simpl; lia).
  assert (Hv : 1 < stored_SNR jv_sample (flat_noise 1e-21) 10 Tobs_4yr
                     (scenario 0))
    by (rewrite scenario_stored_SNR; apply scenario_circular_value).
  change (length
            (filter (fun r : R * R => 1 < r.2)
               [(stored_gw_freq (scenario 0),
                 stored_SNR jv_sample (flat_noise 1e-21) 10 Tobs_4yr
                   (scenario 0));
                (stored_gw_freq (scenario 0),
                 stored_SNR jv_sample (flat_noise 1e-21) 10 Tobs_4yr
                   (scenario 0))])
          = 2%nat).
  rewrite !filter_cons_True by exact Hv. reflexivity.
Defined.

(** ** The assignment of line 294 can fail *)

Lemma ceil_unique (x : R) (n : Z) : IZR n - 1 < x <= IZR n -> np.ceil x = n.
Proof.
  intros [H1 H2]. destruct (ceil_spec x) as [H3 H4].
  assert (Ha : (np.ceil x - 1 < n)%Z)
    by (apply lt_IZR; rewrite minus_IZR; lra).
  assert (Hb : (n - 1 < np.ceil x)%Z)
    by (apply lt_IZR; rewrite minus_IZR; lra).
  lia.
Qed.

Lemma bins_200 : np.arange 5e-4 1e-2 (1 / 200) = [5e-4; 5.5e-3].
Proof.
  unfold np.arange. rewrite (ceil_unique _ 2) by (simpl; lra).
  simpl. f_equal; [lra | f_equal; lra].
Qed.

(** With two bin edges (Tobs = 200 s) and samples in both bins, the index
    array of line 294 has one entry and the value array two: ValueError. *)
Lemma foreground_two_bins_ValueError :
  Forall (fun s => in_band s.1) (samples two_bin_frame)
  /\ (compute_foreground two_bin_frame 200).2 = Raised ValueError.
Proof.
  split.
  - unfold in_band. repeat constructor; simpl; lra.
  - rewrite compute_foreground_result by lra. cbv zeta.
    rewrite bins_200. unfold two_bin_frame, np.digitize. simpl.
    decide_numerals. reflexivity.
Qed.

(** * Further properties of the module *)

(** ** Closed-form helpers *)

(** For two equal masses [m] the chirp mass is [m / 2^(1/5)], and so lies
    between [m / 2] and [m]. *)
Theorem m_chirp_equal_mass_value (m : R) :
  0 < m ->
  m_chirp m m = m / Rpower 2 (1 / 5) /\ m / 2 <= m_chirp m m <= m.
Proof.
  intros Hm. rewrite m_chirp_equal_masses by exact Hm.
  split; [reflexivity|].
  pose proof Rpower_2_fifth as [H1 H2].
  assert (Hq : / 2 <= / Rpower 2 (1 / 5) <= 1).
  { split; [apply Rinv_le_contravar; lra|].
    apply Rle_trans with (/ 1); [apply Rinv_le_contravar; lra|].
    rewrite Rinv_1. lra. }
  unfold Rdiv. nra.
Qed.

Lemma m_chirp_equal_mass_value_witness :
  m_chirp Msun Msun = Msun / Rpower 2 (1 / 5)
  /\ Msun / 2 <= m_chirp Msun Msun <= Msun.
Proof. apply (m_chirp_equal_mass_value Msun). unfold Msun. lra. Defined.

(** ** HarmonicWeights *)

(** Every weight that [peters_gfac] returns is non-negative, for an
    eccentricity of absolute value at most 1 and whatever the Bessel values:
    each is a positive multiple of a sum of squares. *)
Theorem peters_gfac_nonnegative (jv : Z -> R -> R) (ecc : R)
  (n_harmonic : Z) :
  -1 <= ecc <= 1 ->
  Forall (fun g => 0 <= g) (peters_gfac jv ecc n_harmonic).
Proof.
  intros He. unfold peters_gfac, np.arangeZ.
  apply Forall_fmap, Forall_seqZ. intros n Hn. simpl.
  apply g_fac_entry_nonneg; [lia | exact He].
Qed.

Lemma peters_gfac_nonnegative_witness :
  Forall (fun g => 0 <= g) (peters_gfac jv_sample 0.9 10).
Proof. apply (peters_gfac_nonnegative jv_sample 0.9 10). lra. Defined.

Lemma g_fac_entry_origin (jv : Z -> R -> R) (n : Z) :
  jv 0%Z 0 = 1 ->
  (forall k : Z, k <> 0%Z -> jv k 0 = 0) ->
  (1 <= n)%Z ->
  g_fac_entry jv n 0 = if decide (n = 2%Z) then 1 / 4 else 0.
Proof.
  intros H0 Hk Hn. unfold g_fac_entry. cbv zeta. rewrite Rmult_0_r.
  case_decide as H2.
  - subst n. replace (2 - 2)%Z with 0%Z by lia. rewrite H0.
    rewrite !Hk by lia. lra.
  - rewrite (Hk (n - 2)%Z), (Hk n), (Hk (n + 1)%Z), (Hk (n + 2)%Z) by lia.
    unfold Rdiv. ring.
Qed.

(** At zero eccentricity, with the Bessel values at the origin (J_0(0) = 1,
    J_k(0) = 0 for k <> 0), [peters_gfac] is 1/4 at the harmonic n = 2 and 0
    at every other harmonic: the factor g_n/n^2 of the docstring, and the
    1/4 that the circular branch of [LISA_SNR] and [LISA_PSD] applies. *)
Theorem peters_gfac_circular_limit (jv : Z -> R -> R) (n_harmonic n : Z) :
  jv 0%Z 0 = 1 ->
  (forall k : Z, k <> 0%Z -> jv k 0 = 0) ->
  (1 <= n <= n_harmonic - 1)%Z ->
  peters_gfac jv 0 n_harmonic !! Z.to_nat (n - 1)
  = Some (if decide (n = 2%Z) then 1 / 4 else 0).
Proof.
  intros H0 Hk Hn. unfold peters_gfac.
  rewrite list_lookup_fmap, lookup_arangeZ by lia. simpl.
  replace (1 + (n - 1))%Z with n by lia.
  rewrite (g_fac_entry_origin jv n H0 Hk) by lia. reflexivity.
Qed.

Lemma peters_gfac_circular_limit_witness :
  peters_gfac jv_origin 0 10 !! 1%nat = Some (1 / 4)
  /\ peters_gfac jv_origin 0 10 !! 2%nat = Some 0.
Proof.
  split.
  - apply (peters_gfac_circular_limit jv_origin 10 2);
      [reflexivity | | lia].
    intros k Hk. unfold jv_origin. rewrite decide_False by exact Hk.
    reflexivity.
  - apply (peters_gfac_circular_limit jv_origin 10 3);
      [reflexivity | | lia].
    intros k Hk. unfold jv_origin. rewrite decide_False by exact Hk.
    reflexivity.
Defined.

(** ** SourceClassifier: the two [np.where] of lines 172-173 *)

Lemma where_from_sorted (mask : list bool) (i : nat) :
  StronglySorted lt (np.where_from i mask).
Proof.
  revert i. induction mask as [|b mask IH]; intros i; simpl.
  - constructor.
  - destruct b; [|apply IH]. constructor; [apply IH|].
    apply Forall_forall. intros j Hj.
    apply elem_of_where_from in Hj. lia.
Qed.

Lemma where_from_complement (P : R -> Prop) `{forall e, Decision (P e)}
  (Q : R -> Prop) `{forall e, Decision (Q e)} (ecc : list R) (i : nat) :
  (forall e, P e <-> ~ Q e) ->
  (length (np.where_from i ((fun e => bool_decide (P e)) <$> ecc))
   + length (np.where_from i ((fun e => bool_decide (Q e)) <$> ecc))
   = length ecc)%nat.
Proof.
  intros HPQ. revert i. induction ecc as [|e ecc IH]; intros i;
    [reflexivity|].
  rewrite !fmap_cons. simpl. specialize (IH (S i)).
  destruct (decide (Q e)) as [HQ|HQ].
  - rewrite (bool_decide_eq_true_2 (Q e) HQ).
    rewrite (bool_decide_eq_false_2 (P e)) by (rewrite HPQ; tauto).
    simpl. lia.
  - rewrite (bool_decide_eq_false_2 (Q e) HQ).
    rewrite (bool_decide_eq_true_2 (P e)) by (rewrite HPQ; exact HQ).
    simpl. lia.
Qed.

(** The eccentric and the circular index arrays partition the positions of
    the catalog: a position is eccentric exactly when its eccentricity
    exceeds 0.1 and circular exactly when it is at most 0.1 (the boundary 0.1
    is circular), no position is in both, every position is in one, and both
    arrays list their positions in increasing order. *)
Theorem eccentricity_classes_partition (ecc : list R) :
  let ind_ecc := np.where_ ((fun e => bool_decide (0.1 < e)) <$> ecc) in
  let ind_circ := np.where_ ((fun e => bool_decide (e <= 0.1)) <$> ecc) in
  (forall i, i ∈ ind_ecc <-> exists e, ecc !! i = Some e /\ 0.1 < e)
  /\ (forall i, i ∈ ind_circ <-> exists e, ecc !! i = Some e /\ e <= 0.1)
  /\ (forall i, ~ (i ∈ ind_ecc /\ i ∈ ind_circ))
  /\ (length ind_ecc + length ind_circ = length ecc)%nat
  /\ StronglySorted lt ind_ecc
  /\ StronglySorted lt ind_circ.
Proof.
  intros ind_ecc ind_circ.
  assert (He : forall i, i ∈ ind_ecc <-> exists e, ecc !! i = Some e /\ 0.1 < e).
  { intros i. unfold ind_ecc. rewrite elem_of_where, list_lookup_fmap.
    destruct (ecc !! i) as [e|]; simpl.
    - split.
      + intros Hb. injection Hb as Hb. apply bool_decide_eq_true in Hb. eauto.
      + intros (e' & Heq & Hgt). injection Heq as <-. f_equal.
        apply bool_decide_eq_true. exact Hgt.
    - split; [discriminate | intros (e' & Heq & _); discriminate]. }
  assert (Hc : forall i, i ∈ ind_circ <-> exists e, ecc !! i = Some e /\ e <= 0.1).
  { intros i. unfold ind_circ. rewrite elem_of_where, list_lookup_fmap.
    destruct (ecc !! i) as [e|]; simpl.
    - split.
      + intros Hb. injection Hb as Hb. apply bool_decide_eq_true in Hb. eauto.
      + intros (e' & Heq & Hgt). injection Heq as <-. f_equal.
        apply bool_decide_eq_true. exact Hgt.
    - split; [discriminate | intros (e' & Heq & _); discriminate]. }
  split; [exact He|]. split; [exact Hc|]. split; [|split; [|split]].
  - intros i [H1 H2]. apply He in H1. apply Hc in H2.
    destruct H1 as (e & Heq & Hgt). destruct H2 as (e' & Heq' & Hle).
    rewrite Heq in Heq'. injection Heq' as <-. lra.
  - apply (where_from_complement (fun e => 0.1 < e) (fun e => e <= 0.1)).
    intros e. lra.
  - apply where_from_sorted.
  - apply where_from_sorted.
Qed.

(** ** SNRAggregator: whole catalogs *)

(** For a catalog of two or more sources and [n_harmonic >= 2], [LISA_SNR]
    returns, in catalog order, exactly the rows (frequency, SNR entry) of
    the sources whose SNR entry exceeds 1.0; a source is never reordered,
    duplicated or replaced. *)
Theorem LISA_SNR_table_of_catalog (jv : Z -> R -> R) (noise : R -> R)
  (cat : list Binary) (N : Z) (Tobs : R) :
  (2 <= N)%Z ->
  (1 < length cat)%nat ->
  LISA_SNR_catalog jv noise cat N Tobs
  = Returned
      (filter (fun r => 1 < r.2)
         ((fun b => (stored_gw_freq b, stored_SNR jv noise N Tobs b))
            <$> cat)).
Proof.
  intros HN Hlen. rewrite LISA_SNR_catalog_eq by exact HN.
  rewrite SNR_threshold_long by (rewrite length_zip, !length_fmap; lia).
  rewrite zip_with_fmap_l, zip_with_fmap_r, zip_with_diag. reflexivity.
Qed.

Lemma LISA_SNR_table_of_catalog_witness :
  LISA_SNR_catalog jv_sample (flat_noise 1e-21) mixed_pair 10 Tobs_4yr
  = Returned
      (filter (fun r => 1 < r.2)
         ((fun b =>
             (stored_gw_freq b,
              stored_SNR jv_sample (flat_noise 1e-21) 10 Tobs_4yr b))
            <$> mixed_pair)).
Proof.
  apply (LISA_SNR_table_of_catalog jv_sample (flat_noise 1e-21) mixed_pair
           10 Tobs_4yr); [lia | simpl; lia].
Defined.

Lemma SNR_columns_catalog_circular (jv : Z -> R -> R) (noise : R -> R)
  (cat : list Binary) (N : Z) (Tobs : R) :
  Forall (fun b => b_ecc b <= 0.1) cat ->
  SNR_columns_catalog jv noise cat N Tobs
  = Returned
      ((fun b => 2 / b_porb b) <$> cat,
       (fun b => h_0_of b ^ 2 * 1 / 4 * Tobs / noise (2 / b_porb b) ^ 2)
         <$> cat).
Proof.
  intros Hcirc. unfold SNR_columns_catalog, SNR_columns.
  rewrite broadcast2_fmap.
  rewrite (broadcast3_fmap strain (fun b => m_chirp (b_m1 b) (b_m2 b))
             b_dist b_porb cat).
  change (fun x => strain (m_chirp (b_m1 x) (b_m2 x)) (b_dist x) (b_porb x))
    with h_0_of.
  rewrite <- (list_fmap_compose h_0_of (fun h => h ^ 2) cat).
  change ((fun h => h ^ 2) ∘ h_0_of) with (fun b => h_0_of b ^ 2).
  rewrite length_fmap. cbv zeta.
  assert (Hnil : np.where_ ((fun e => bool_decide (0.1 < e)) <$> (b_ecc <$> cat))
                 = []).
  { destruct (np.where_ _) as [|i l] eqn:Hw; [reflexivity|]. exfalso.
    assert (Hi : i ∈ np.where_
                       ((fun e => bool_decide (0.1 < e)) <$> (b_ecc <$> cat)))
      by (rewrite Hw; left).
    apply elem_of_ind_ecc in Hi. destruct Hi as (b & Hb & He).
    rewrite Forall_forall in Hcirc.
    assert (Hin : b ∈ cat) by (apply list_elem_of_lookup; eauto).
    specialize (Hcirc b Hin). simpl in Hcirc. lra. }
  rewrite Hnil. rewrite decide_False by (simpl; lia).
  set (ind_circ :=
         np.where_ ((fun e => bool_decide (e <= 0.1)) <$> (b_ecc <$> cat))).
  assert (Hall : forall i b, cat !! i = Some b -> i ∈ ind_circ).
  { intros i b Hb. apply elem_of_ind_circ. exists b. split; [exact Hb|].
    rewrite Forall_forall in Hcirc. apply Hcirc.
    apply list_elem_of_lookup. eauto. }
  assert (Hgw_c : (fun p => 2 / p) <$> iloc (b_porb <$> cat) ind_circ
                  = (fun i => 2 / nth i (b_porb <$> cat) 0) <$> ind_circ).
  { unfold iloc. rewrite <- list_fmap_compose. reflexivity. }
  assert (Hsnr_c :
            broadcast2 (fun h p => h * 1 / 4 * Tobs / noise (2 / p) ^ 2)
              (iloc ((fun b => h_0_of b ^ 2) <$> cat) ind_circ)
              (iloc (b_porb <$> cat) ind_circ)
            = (fun i =>
                 nth i ((fun b => h_0_of b ^ 2) <$> cat) 0 * 1 / 4 * Tobs
                 / noise (2 / nth i (b_porb <$> cat) 0) ^ 2) <$> ind_circ).
  { unfold iloc.
    apply (broadcast2_fmap
             (fun h p => h * 1 / 4 * Tobs / noise (2 / p) ^ 2)
             (fun i => nth i ((fun b => h_0_of b ^ 2) <$> cat) 0)
             (fun i => nth i (b_porb <$> cat) 0) ind_circ). }
  rewrite Hgw_c, Hsnr_c. clear Hgw_c Hsnr_c.
  f_equal. f_equal.
  - match goal with
    | |- np.put ?a ?ind ?v = _ =>
        change (np.put a ind v)
          with (np.put (np.put a ind v) []
                  ((fun _ : nat => 0) <$> ([] : list nat)))
    end.
    apply two_puts_eq;
      [apply NoDup_where | constructor | apply length_fmap
      | intros i Hi; inversion Hi | ].
    intros i Hi. destruct (lookup_lt_is_Some_2 cat i Hi) as [b Hb].
    right. split; [intros H; inversion H|]. split; [exact (Hall i b Hb)|].
    rewrite list_lookup_fmap, Hb. simpl.
    rewrite (nth_column _ cat i b Hb). reflexivity.
  - match goal with
    | |- np.put ?a ?ind ?v = _ =>
        change (np.put a ind v)
          with (np.put (np.put a ind v) []
                  ((fun _ : nat => 0) <$> ([] : list nat)))
    end.
    apply two_puts_eq;
      [apply NoDup_where | constructor | apply length_fmap
      | intros i Hi; inversion Hi | ].
    intros i Hi. destruct (lookup_lt_is_Some_2 cat i Hi) as [b Hb].
    right. split; [intros H; inversion H|]. split; [exact (Hall i b Hb)|].
    rewrite list_lookup_fmap, Hb. simpl.
    rewrite !(nth_column _ cat i b Hb). reflexivity.
Qed.

(** With no eccentric source in the catalog the harmonic expansion is
    skipped: [LISA_SNR] returns for every [n_harmonic] (also 1, 0 or a
    negative number), and neither [n_harmonic] nor the Bessel function has
    any influence on the table.  The empty catalog gives the empty table. *)
Theorem LISA_SNR_circular_catalog (jv jv' : Z -> R -> R) (noise : R -> R)
  (cat : list Binary) (N N' : Z) (Tobs : R) :
  Forall (fun b => b_ecc b <= 0.1) cat ->
  LISA_SNR_catalog jv noise cat N Tobs
  = Returned
      (SNR_threshold ((fun b => 2 / b_porb b) <$> cat)
         ((fun b => h_0_of b ^ 2 * 1 / 4 * Tobs / noise (2 / b_porb b) ^ 2)
            <$> cat))
  /\ LISA_SNR_catalog jv' noise cat N' Tobs
     = LISA_SNR_catalog jv noise cat N Tobs.
Proof.
  intros Hcirc.
  assert (Heq : forall j n,
            LISA_SNR_catalog j noise cat n Tobs
            = Returned
                (SNR_threshold ((fun b => 2 / b_porb b) <$> cat)
                   ((fun b =>
                       h_0_of b ^ 2 * 1 / 4 * Tobs / noise (2 / b_porb b) ^ 2)
                      <$> cat))).
  { intros j n. unfold LISA_SNR_catalog, LISA_SNR.
    pose proof (SNR_columns_catalog_circular j noise cat n Tobs Hcirc) as H.
    unfold SNR_columns_catalog in H. rewrite H. reflexivity. }
  split; [apply Heq|]. rewrite !Heq. reflexivity.
Qed.

Lemma LISA_SNR_circular_catalog_witness :
  LISA_SNR_catalog jv_origin (flat_noise 1e-21) circular_pair 0 Tobs_4yr
  = LISA_SNR_catalog jv_sample (flat_noise 1e-21) circular_pair 10 Tobs_4yr
  /\ LISA_SNR_catalog jv_sample (flat_noise 1e-21) [] 10 Tobs_4yr
     = Returned [].
Proof.
  split.
  - apply (LISA_SNR_circular_catalog jv_sample jv_origin (flat_noise 1e-21)
             circular_pair 10 0 Tobs_4yr).
    repeat constructor; simpl; lra.
  - apply (LISA_SNR_circular_catalog jv_sample jv_sample (flat_noise 1e-21)
             [] 10 10 Tobs_4yr).
    constructor.
Defined.

Lemma sum_app (xs ys : list R) : np.sum (xs ++ ys) = np.sum xs + np.sum ys.
Proof.
  induction xs as [|x xs IH]; [unfold np.sum; simpl; lra|].
  change ((x :: xs) ++ ys) with (x :: (xs ++ ys)).
  rewrite !sum_cons, IH. lra.
Qed.

Lemma snr_ecc_spec_mono (jv : Z -> R -> R) (noise : R -> R) (b : Binary)
  (N : Z) (Tobs : R) :
  (1 <= N)%Z ->
  0 <= Tobs ->
  -1 <= b_ecc b <= 1 ->
  noise (IZR N / b_porb b) <> 0 ->
  snr_ecc_spec jv noise b N Tobs <= snr_ecc_spec jv noise b (N + 1) Tobs.
Proof.
  intros HN HT He Hnoise. unfold snr_ecc_spec.
  apply sqrt_le_1_alt.
  replace (N + 1 - 1)%Z with ((N - 1) + 1)%Z by lia.
  rewrite seqZ_app by lia. rewrite fmap_app, sum_app.
  replace (1 + (N - 1))%Z with N by lia.
  change (seqZ N 1) with [N]. rewrite fmap_cons, sum_cons.
  change (np.sum ((fun n => _) <$> [])) with 0.
  assert (Hterm : 0 <= h_0_of b ^ 2 * Tobs * g_spec jv N (b_ecc b)
                       / noise (IZR N / b_porb b) ^ 2).
  { pose proof (pow2_ge_0 (h_0_of b)) as Hh.
    pose proof (g_fac_entry_nonneg jv N (b_ecc b) HN He) as Hg.
    rewrite g_fac_entry_spec in Hg.
    assert (Hn2 : 0 < noise (IZR N / b_porb b) ^ 2).
    { set (x := noise (IZR N / b_porb b)) in *.
      destruct (Rtotal_order x 0) as [Hx|[Hx|Hx]]; [nra | tauto | nra]. }
    apply Rmult_le_pos; [|apply Rlt_le, Rinv_0_lt_compat; exact Hn2].
    apply Rmult_le_pos; [apply Rmult_le_pos; assumption | exact Hg]. }
  lra.
Qed.

(** Including one more harmonic never lowers the SNR that [LISA_SNR]
    computes for an eccentric source (0.1 < ecc <= 1), for a non-negative
    observation time and a noise curve that does not vanish at the added
    harmonic's frequency; the frequency entry does not depend on the number
    of harmonics. *)
Theorem LISA_SNR_more_harmonics (jv : Z -> R -> R) (noise : R -> R)
  (cat : list Binary) (N : Z) (Tobs : R) (i : nat) (b : Binary) :
  (2 <= N)%Z ->
  0 <= Tobs ->
  cat !! i = Some b ->
  0.1 < b_ecc b <= 1 ->
  noise (IZR N / b_porb b) <> 0 ->
  exists gw SNR gw' SNR' : list R,
    SNR_columns_catalog jv noise cat N Tobs = Returned (gw, SNR)
    /\ SNR_columns_catalog jv noise cat (N + 1) Tobs = Returned (gw', SNR')
    /\ gw !! i = gw' !! i
    /\ exists s s' : R, SNR !! i = Some s /\ SNR' !! i = Some s' /\ s <= s'.
Proof.
  intros HN HT Hb He Hnoise.
  exists (stored_gw_freq <$> cat), (stored_SNR jv noise N Tobs <$> cat),
    (stored_gw_freq <$> cat), (stored_SNR jv noise (N + 1) Tobs <$> cat).
  split; [apply SNR_columns_catalog_eq; exact HN|].
  split; [apply SNR_columns_catalog_eq; lia|].
  split; [reflexivity|].
  exists (snr_ecc_spec jv noise b N Tobs),
    (snr_ecc_spec jv noise b (N + 1) Tobs).
  split; [|split].
  - rewrite list_lookup_fmap, Hb. simpl. unfold stored_SNR.
    rewrite decide_True by lra. reflexivity.
  - rewrite list_lookup_fmap, Hb. simpl. unfold stored_SNR.
    rewrite decide_True by lra. reflexivity.
  - apply snr_ecc_spec_mono; [lia | exact HT | lra | exact Hnoise].
Qed.

Lemma LISA_SNR_more_harmonics_witness :
  exists gw SNR gw' SNR' : list R,
    SNR_columns_catalog jv_sample (flat_noise 1) mixed_pair 10 Tobs_4yr
    = Returned (gw, SNR)
    /\ SNR_columns_catalog jv_sample (flat_noise 1) mixed_pair (10 + 1)
         Tobs_4yr
       = Returned (gw', SNR')
    /\ gw !! 1%nat = gw' !! 1%nat
    /\ exists s s' : R,
         SNR !! 1%nat = Some s /\ SNR' !! 1%nat = Some s' /\ s <= s'.
Proof.
  apply (LISA_SNR_more_harmonics jv_sample (flat_noise 1) mixed_pair 10
           Tobs_4yr 1 (scenario 0.9)).
  - lia.
  - unfold Tobs_4yr, sec_in_year. lra.
  - reflexivity.
  - simpl. lra.
  - unfold flat_noise. lra.
Defined.

(** ** PSDAggregator: circular catalogs *)

Lemma where_from_all (mask : list bool) (i : nat) :
  Forall (fun b => b = true) mask ->
  np.where_from i mask = seq i (length mask).
Proof.
  intros Hall. revert i. induction Hall as [|b mask Hb _ IH]; intros i;
    [reflexivity|].
  subst b. simpl. rewrite IH. reflexivity.
Qed.

Lemma iloc_all (s : list R) : iloc s (seq 0 (length s)) = s.
Proof.
  unfold iloc. transitivity (id <$> s); [|apply list_fmap_id].
  symmetry. apply (fmap_as_seq 0 id s).
Qed.

Lemma ind_circ_all (cat : list Binary) :
  Forall (fun b => b_ecc b <= 0.1) cat ->
  np.where_ ((fun e => bool_decide (e <= 0.1)) <$> (b_ecc <$> cat))
  = seq 0 (length cat).
Proof.
  intros Hcirc. unfold np.where_. rewrite where_from_all.
  - rewrite !length_fmap. reflexivity.
  - rewrite <- list_fmap_compose. apply Forall_fmap.
    eapply Forall_impl; [exact Hcirc|]. intros b Hb. simpl.
    apply bool_decide_eq_true. exact Hb.
Qed.

Lemma ind_ecc_none (cat : list Binary) :
  Forall (fun b => b_ecc b <= 0.1) cat ->
  np.where_ ((fun e => bool_decide (0.1 < e)) <$> (b_ecc <$> cat)) = [].
Proof.
  intros Hcirc.
  destruct (np.where_ _) as [|i l] eqn:Hw; [reflexivity|]. exfalso.
  assert (Hi : i ∈ np.where_
                     ((fun e => bool_decide (0.1 < e)) <$> (b_ecc <$> cat)))
    by (rewrite Hw; left).
  apply elem_of_ind_ecc in Hi. destruct Hi as (b & Hb & He).
  rewrite Forall_forall in Hcirc.
  assert (Hin : b ∈ cat) by (apply list_elem_of_lookup; eauto).
  specialize (Hcirc b Hin). simpl in Hcirc. lra.
Qed.

(** For a catalog without eccentric sources [LISA_PSD] returns one row per
    source, in catalog order and without any threshold: the frequency
    2/porb and the power h0^2 * (1/4) * Tobs.  [n_harmonic] and the Bessel
    function play no part. *)
Theorem LISA_PSD_circular_catalog (jv : Z -> R -> R) (cat : list Binary)
  (N : Z) (Tobs : R) :
  Forall (fun b => b_ecc b <= 0.1) cat ->
  LISA_PSD_catalog jv cat N Tobs
  = Returned
      ((fun b => (2 / b_porb b, h_0_of b ^ 2 * (1 / 4) * Tobs)) <$> cat).
Proof.
  intros Hcirc. unfold LISA_PSD_catalog, LISA_PSD.
  rewrite broadcast2_fmap.
  rewrite (broadcast3_fmap strain (fun b => m_chirp (b_m1 b) (b_m2 b))
             b_dist b_porb cat).
  change (fun x => strain (m_chirp (b_m1 x) (b_m2 x)) (b_dist x) (b_porb x))
    with h_0_of.
  rewrite <- (list_fmap_compose h_0_of (fun h => h ^ 2) cat).
  cbv zeta. rewrite (ind_ecc_none cat Hcirc), (ind_circ_all cat Hcirc).
  rewrite decide_False by (simpl; lia).
  rewrite !app_nil_l.
  assert (Hp : iloc (b_porb <$> cat) (seq 0 (length cat)) = b_porb <$> cat).
  { pose proof (iloc_all (b_porb <$> cat)) as H.
    rewrite length_fmap in H. exact H. }
  assert (Hh : iloc (((fun h => h ^ 2) ∘ h_0_of) <$> cat) (seq 0 (length cat))
               = ((fun h => h ^ 2) ∘ h_0_of) <$> cat).
  { pose proof (iloc_all (((fun h => h ^ 2) ∘ h_0_of) <$> cat)) as H.
    rewrite length_fmap in H. exact H. }
  rewrite Hp, Hh, <- !list_fmap_compose. f_equal.
  rewrite zip_with_fmap_l, zip_with_fmap_r, zip_with_diag.
  apply list_fmap_ext. intros i b _. simpl. f_equal. unfold Rdiv. ring.
Qed.

Lemma LISA_PSD_circular_catalog_witness :
  LISA_PSD_catalog jv_sample circular_pair 10 Tobs_4yr
  = Returned
      ((fun b => (2 / b_porb b, h_0_of b ^ 2 * (1 / 4) * Tobs_4yr))
         <$> circular_pair).
Proof.
  apply (LISA_PSD_circular_catalog jv_sample circular_pair 10 Tobs_4yr).
  repeat constructor; simpl; lra.
Defined.

(** ** ForegroundBinner: the rows of the spectrum *)

Lemma put_broadcast_length (a : list R) (ind : list nat) (vals t : list R) :
  np.put_broadcast a ind vals = Returned t -> length t = length a.
Proof.
  unfold np.put_broadcast. case_decide.
  - intros Heq. injection Heq as <-. apply length_put.
  - destruct vals as [|v [|v' vals]]; try discriminate.
    intros Heq. injection Heq as <-. apply length_put.
Qed.

Lemma foreground_returned_shape (psd_dat : psd_frame) (Tobs : R)
  (rows : list (R * R)) :
  Tobs <> 0 ->
  (compute_foreground psd_dat Tobs).2 = Returned rows ->
  exists power_tot : list R,
    length power_tot = (length (np.arange 5e-4 1e-2 (1 / Tobs)) + 1)%nat
    /\ rows = zip (np.arange 5e-4 1e-2 (1 / Tobs)) (drop 1 power_tot).
Proof.
  intros HT. rewrite compute_foreground_result by exact HT. cbv zeta.
  destruct (np.put_broadcast _ _ _) as [t|e] eqn:Hput;
    cbv beta iota delta [mbind result_bind]; [|discriminate].
  intros Heq. injection Heq as <-. exists t. split; [|reflexivity].
  apply put_broadcast_length in Hput. rewrite Hput.
  apply length_replicate.
Qed.

(** Whenever [compute_foreground] returns (Tobs > 0), the frequency column
    of the spectrum is the array of bin edges itself, whatever the samples:
    one row per edge of [np.arange(5e-4, 1e-2, 1/Tobs)], row [j] labelled
    with the left edge 5e-4 + j/Tobs of its bin, so that the labels start
    at 5e-4 and rise by 1/Tobs from row to row. *)
Theorem foreground_frequency_column (psd_dat : psd_frame) (Tobs : R)
  (rows : list (R * R)) :
  0 < Tobs ->
  (compute_foreground psd_dat Tobs).2 = Returned rows ->
  rows.*1 = np.arange 5e-4 1e-2 (1 / Tobs)
  /\ length rows = length (np.arange 5e-4 1e-2 (1 / Tobs))
  /\ forall (j : nat) (row : R * R),
       rows !! j = Some row ->
       row.1 = 5e-4 + INR j * (1 / Tobs) /\ 5e-4 <= row.1.
Proof.
  intros HT Hret.
  destruct (foreground_returned_shape psd_dat Tobs rows) as (t & Hlen & ->);
    [lra | exact Hret |].
  assert (Hfst : (zip (np.arange 5e-4 1e-2 (1 / Tobs)) (drop 1 t)).*1
                 = np.arange 5e-4 1e-2 (1 / Tobs)).
  { apply fst_zip. rewrite length_drop. lia. }
  split; [exact Hfst|]. split.
  - rewrite <- (length_fmap fst), Hfst. reflexivity.
  - intros j [f p] Hj. simpl.
    assert (Hf : np.arange 5e-4 1e-2 (1 / Tobs) !! j = Some f).
    { rewrite <- Hfst, list_lookup_fmap, Hj. reflexivity. }
    assert (Hin : f ∈ np.arange 5e-4 1e-2 (1 / Tobs))
      by (apply list_elem_of_lookup; eauto).
    pose proof (binwidth_pos Tobs HT) as Hw.
    pose proof (arange_ge_start _ _ _ _ Hw Hin).
    rewrite lookup_arange in Hf by (apply lookup_lt_Some in Hf; exact Hf).
    injection Hf as <-. split; [reflexivity | lra].
Qed.

Lemma foreground_frequency_column_witness :
  exists rows : list (R * R),
    (compute_foreground one_sample_frame Tobs_4yr).2 = Returned rows
    /\ rows.*1 = np.arange 5e-4 1e-2 (1 / Tobs_4yr)
    /\ forall (j : nat) (row : R * R),
         rows !! j = Some row ->
         row.1 = 5e-4 + INR j * (1 / Tobs_4yr) /\ 5e-4 <= row.1.
Proof.
  pose proof (foreground_rows one_sample_frame Tobs_4yr Tobs_4yr_pos) as Hret.
  eexists. split.
  - apply Hret. pose proof bins_4yr_many. simpl. lia.
  - destruct (foreground_frequency_column one_sample_frame Tobs_4yr _
                Tobs_4yr_pos
                (Hret ltac:(pose proof bins_4yr_many; simpl; lia)))
      as (Hcol & _ & Hlab).
    split; [exact Hcol | exact Hlab].
Defined.

Lemma searchsorted_spec (bins : list R) (x : R) (d : nat) :
  np.searchsorted_right bins x = d
  <-> (d <= length bins)%nat
      /\ (forall i b, (i < d)%nat -> bins !! i = Some b -> b <= x)
      /\ (forall b, bins !! d = Some b -> x < b).
Proof.
  revert d. induction bins as [|b0 bins IH]; intros d; simpl.
  - split.
    + intros <-. split; [lia|]. split; [intros; lia | discriminate].
    + intros (Hd & _ & _). lia.
  - case_decide as Hb0.
    + split.
      * intros <-.
        destruct (proj1 (IH (np.searchsorted_right bins x)) eq_refl)
          as (H1 & H2 & H3).
        split; [lia|]. split.
        -- intros [|i] b Hi Hb; simpl in Hb.
           ++ injection Hb as <-. exact Hb0.
           ++ apply (H2 i); [lia | exact Hb].
        -- intros b Hb. simpl in Hb. apply H3. exact Hb.
      * intros (H1 & H2 & H3). destruct d as [|d].
        -- specialize (H3 b0 eq_refl). lra.
        -- f_equal. apply IH. split; [lia|]. split.
           ++ intros i b Hi Hb. apply (H2 (S i)); [lia | exact Hb].
           ++ intros b Hb. apply H3. exact Hb.
    + split.
      * intros <-. split; [lia|]. split; [intros; lia|].
        intros b Hb. simpl in Hb. injection Hb as <-. lra.
      * intros (H1 & H2 & H3). destruct d as [|d]; [reflexivity|].
        exfalso. apply Hb0. apply (H2 0%nat); [lia | reflexivity].
Qed.

(** The bin index of a frequency inside the band: [np.digitize] gives
    [j + 1] exactly to the frequencies of the half-open interval between
    edge [j] and edge [j + 1]. *)
Lemma digit_interior (Tobs f : R) (j : nat) :
  0 < Tobs ->
  (j + 1 < length (np.arange 5e-4 1e-2 (1 / Tobs)))%nat ->
  np.searchsorted_right (np.arange 5e-4 1e-2 (1 / Tobs)) f = (j + 1)%nat
  <-> 5e-4 + INR j * (1 / Tobs) <= f < 5e-4 + INR (j + 1) * (1 / Tobs).
Proof.
  intros HT Hj. pose proof (binwidth_pos Tobs HT) as Hw.
  rewrite searchsorted_spec. split.
  - intros (_ & Hlow & Hhigh). split.
    + apply (Hlow j); [lia|]. apply lookup_arange. lia.
    + apply Hhigh. apply lookup_arange. exact Hj.
  - intros [Hlow Hhigh]. split; [lia|]. split.
    + intros i b Hi Hb.
      rewrite lookup_arange in Hb by (apply lookup_lt_Some in Hb; exact Hb).
      injection Hb as <-.
      assert (INR i <= INR j) by (apply le_INR; lia). nra.
    + intros b Hb. rewrite lookup_arange in Hb by exact Hj.
      injection Hb as <-. exact Hhigh.
Qed.

Lemma total_of_digit (bins : list R) (samples : list (R * R)) (d : nat)
  (P : R -> Prop) `{forall f, Decision (P f)} :
  (forall f, np.searchsorted_right bins f = d <-> P f) ->
  total_of d (zip (np.digitize samples.*1 bins) samples.*2)
  = psd_where P samples.
Proof.
  intros HP. unfold total_of, psd_where, np.digitize.
  rewrite zip_digits_samples, <- list_fmap_compose.
  f_equal. apply list_fmap_ext. intros i [f p] _. simpl.
  specialize (HP f). repeat case_decide; tauto || reflexivity.
Qed.

(** Every row but the last holds exactly the PSD of the samples whose
    frequency lies in the row's own bin: for fewer samples than bins and
    [j + 1] below the number of bins, row [j] of the spectrum is the edge
    5e-4 + j/Tobs with the total PSD of the samples in
    [5e-4 + j/Tobs, 5e-4 + (j+1)/Tobs). *)
Theorem foreground_interior_row (psd_dat : psd_frame) (Tobs : R) (j : nat) :
  0 < Tobs ->
  (length (samples psd_dat) + 1
   <= length (np.arange 5e-4 1e-2 (1 / Tobs)))%nat ->
  (j + 1 < length (np.arange 5e-4 1e-2 (1 / Tobs)))%nat ->
  exists rows : list (R * R),
    (compute_foreground psd_dat Tobs).2 = Returned rows
    /\ rows !! j
       = Some (5e-4 + INR j * (1 / Tobs),
               psd_where
                 (fun f => 5e-4 + INR j * (1 / Tobs) <= f
                           < 5e-4 + INR (j + 1) * (1 / Tobs))
                 (samples psd_dat)).
Proof.
  intros HT Hfew Hj. eexists. split; [apply foreground_rows; assumption|].
  apply lookup_zip_with_Some. eexists _, _. split; [reflexivity|]. split.
  - apply lookup_arange. lia.
  - rewrite list_lookup_fmap, lookup_seq_lt by lia. simpl. f_equal.
    apply total_of_digit. intros f.
    replace (S j) with (j + 1)%nat by lia.
    apply digit_interior; assumption.
Qed.

Lemma foreground_interior_row_witness :
  exists rows : list (R * R),
    (compute_foreground one_sample_frame Tobs_4yr).2 = Returned rows
    /\ rows !! 0%nat
       = Some (5e-4 + INR 0 * (1 / Tobs_4yr),
               psd_where
                 (fun f => 5e-4 + INR 0 * (1 / Tobs_4yr) <= f
                           < 5e-4 + INR (0 + 1) * (1 / Tobs_4yr))
                 (samples one_sample_frame)).
Proof.
  apply (foreground_interior_row one_sample_frame Tobs_4yr 0).
  - apply Tobs_4yr_pos.
  - pose proof bins_4yr_many. simpl. lia.
  - pose proof bins_4yr_many. lia.
Defined.

(** ** ForegroundBinner: totals and signs *)

Lemma bins_nonempty (Tobs : R) :
  0 < Tobs -> (1 <= length (np.arange 5e-4 1e-2 (1 / Tobs)))%nat.
Proof.
  intros HT. destruct (bins_head Tobs HT) as [rest ->]. simpl. lia.
Qed.

(** An empty table of samples is no error: for every positive [Tobs] the
    call returns the spectrum with one row per bin edge and PSD 0 in every
    row, and leaves an (empty) 'digits' column on the input frame. *)
Theorem foreground_of_no_samples (d : option (list nat)) (Tobs : R) :
  0 < Tobs ->
  compute_foreground (mkFrame [] d) Tobs
  = (mkFrame [] (Some []),
     Returned ((fun e => (e, 0)) <$> np.arange 5e-4 1e-2 (1 / Tobs))).
Proof.
  intros HT. apply injective_projections.
  - rewrite compute_foreground_frame by lra. reflexivity.
  - rewrite foreground_rows;
      [|exact HT | pose proof (bins_nonempty Tobs HT); simpl; lia].
    simpl. f_equal.
    set (bins := np.arange 5e-4 1e-2 (1 / Tobs)).
    apply list_eq. intros i.
    rewrite lookup_zip_with, !list_lookup_fmap.
    destruct (decide (i < length bins)%nat) as [Hi|Hi].
    + rewrite lookup_seq_lt by exact Hi.
      destruct (lookup_lt_is_Some_2 bins i Hi) as [e ->]. reflexivity.
    + rewrite (lookup_ge_None_2 bins) by lia. reflexivity.
Qed.

Lemma foreground_of_no_samples_witness :
  compute_foreground (mkFrame [] None) Tobs_4yr
  = (mkFrame [] (Some []),
     Returned ((fun e => (e, 0)) <$> np.arange 5e-4 1e-2 (1 / Tobs_4yr))).
Proof. apply (foreground_of_no_samples None Tobs_4yr Tobs_4yr_pos). Defined.

Lemma psd_where_none (P : R -> Prop) `{forall f, Decision (P f)}
  (samples : list (R * R)) :
  Forall (fun s => ~ P s.1) samples -> psd_where P samples = 0.
Proof.
  unfold psd_where. induction 1 as [|s samples Hs _ IH]; [reflexivity|].
  rewrite fmap_cons, sum_cons, IH, decide_False by exact Hs. lra.
Qed.

(** When no sample lies at or above 1e-2 Hz (and there are fewer samples
    than bins), binning conserves the in-band power: the PSD column of the
    spectrum sums to the total PSD of the samples in [5e-4, 1e-2); samples
    below 5e-4 Hz are left out. *)
Theorem foreground_conserves_in_band_power (psd_dat : psd_frame) (Tobs : R) :
  0 < Tobs ->
  (length (samples psd_dat) + 1
   <= length (np.arange 5e-4 1e-2 (1 / Tobs)))%nat ->
  Forall (fun s => s.1 < 1e-2) (samples psd_dat) ->
  exists rows : list (R * R),
    (compute_foreground psd_dat Tobs).2 = Returned rows
    /\ np.sum rows.*2 = psd_where in_band (samples psd_dat).
Proof.
  intros HT Hfew Hbelow. eexists. split; [apply foreground_rows; assumption|].
  rewrite snd_zip by (rewrite length_fmap, length_seq; lia).
  rewrite foreground_total by exact HT. rewrite psd_where_split.
  rewrite (psd_where_none (fun f => 1e-2 <= f)); [lra|].
  eapply Forall_impl; [exact Hbelow|]. simpl. intros s Hs. lra.
Qed.

Lemma foreground_conserves_in_band_power_witness :
  exists rows : list (R * R),
    (compute_foreground (mkFrame [(1e-4, 5); (0.002, 1)] None) Tobs_4yr).2
    = Returned rows
    /\ np.sum rows.*2 = psd_where in_band [(1e-4, 5); (0.002, 1)].
Proof.
  apply (foreground_conserves_in_band_power
           (mkFrame [(1e-4, 5); (0.002, 1)] None) Tobs_4yr).
  - apply Tobs_4yr_pos.
  - pose proof bins_4yr_many. simpl. lia.
  - repeat constructor; simpl; lra.
Defined.

Lemma total_of_nonneg (d : nat) (kvs : list (nat * R)) :
  Forall (fun kv => 0 <= kv.2) kvs -> 0 <= total_of d kvs.
Proof.
  unfold total_of. induction 1 as [|[k v] kvs Hv _ IH];
    [unfold np.sum; simpl; lra|].
  rewrite fmap_cons, sum_cons. simpl in *. case_decide; lra.
Qed.

(** Binning keeps the sign: when every sample has a non-negative PSD (and
    there are fewer samples than bins), every row of the spectrum has a
    non-negative PSD. *)
Theorem foreground_nonnegative (psd_dat : psd_frame) (Tobs : R) :
  0 < Tobs ->
  (length (samples psd_dat) + 1
   <= length (np.arange 5e-4 1e-2 (1 / Tobs)))%nat ->
  Forall (fun s => 0 <= s.2) (samples psd_dat) ->
  exists rows : list (R * R),
    (compute_foreground psd_dat Tobs).2 = Returned rows
    /\ Forall (fun row => 0 <= row.2) rows.
Proof.
  intros HT Hfew Hpos. eexists. split; [apply foreground_rows; assumption|].
  apply (Forall_fmap snd (fun x => 0 <= x)).
  rewrite snd_zip by (rewrite length_fmap, length_seq; lia).
  apply Forall_fmap, Forall_forall. intros d _. simpl.
  apply total_of_nonneg. unfold np.digitize.
  rewrite zip_digits_samples. apply Forall_fmap.
  eapply Forall_impl; [exact Hpos|]. intros [f p] Hp. exact Hp.
Qed.

Lemma foreground_nonnegative_witness :
  exists rows : list (R * R),
    (compute_foreground overflow_frame Tobs_4yr).2 = Returned rows
    /\ Forall (fun row => 0 <= row.2) rows.
Proof.
  apply (foreground_nonnegative overflow_frame Tobs_4yr).
  - apply Tobs_4yr_pos.
  - pose proof bins_4yr_many. simpl. lia.
  - repeat constructor; simpl; lra.
Defined.

(** ** ForegroundBinner: when the assignment of line 294 fails *)

Lemma group_add_key_in (k : nat) (v : R) (acc : list (nat * R)) :
  k ∈ (pd.group_add k v acc).*1.
Proof.
  induction acc as [|[k' s] acc IH]; simpl; [left|].
  repeat case_decide; subst; simpl; try (left; fail). right. exact IH.
Qed.

Lemma group_add_keys_kept (k k0 : nat) (v : R) (acc : list (nat * R)) :
  k0 ∈ acc.*1 -> k0 ∈ (pd.group_add k v acc).*1.
Proof.
  induction acc as [|[k' s] acc IH]; simpl; intros Hin; [inversion Hin|].
  repeat case_decide; subst; simpl.
  - right. exact Hin.
  - exact Hin.
  - apply elem_of_cons in Hin. destruct Hin as [->|Hin]; [left|].
    right. apply IH. exact Hin.
Qed.

Lemma groupby_keys_cover (kvs acc : list (nat * R)) (k : nat) :
  k ∈ acc.*1 \/ k ∈ kvs.*1 ->
  k ∈ (foldl (fun acc kv => pd.group_add kv.1 kv.2 acc) acc kvs).*1.
Proof.
  revert acc. induction kvs as [|[k1 v1] kvs IH]; intros acc Hk; simpl.
  - destruct Hk as [Hk|Hk]; [exact Hk | inversion Hk].
  - apply IH. destruct Hk as [Hk|Hk].
    + left. apply group_add_keys_kept. exact Hk.
    + simpl in Hk. apply elem_of_cons in Hk. destruct Hk as [->|Hk].
      * left. apply group_add_key_in.
      * right. exact Hk.
Qed.

(** The call fails when the samples populate too many bins: with at least
    two bin edges, as soon as the samples carry as many distinct bin indices
    as there are edges, line 294 assigns more sums than it selects indices
    and [compute_foreground] raises ValueError (after it has written the
    'digits' column). *)
Theorem foreground_crowded_raises (psd_dat : psd_frame) (Tobs : R)
  (ds : list nat) :
  0 < Tobs ->
  (2 <= length (np.arange 5e-4 1e-2 (1 / Tobs)))%nat ->
  NoDup ds ->
  ds ⊆ np.digitize (samples psd_dat).*1 (np.arange 5e-4 1e-2 (1 / Tobs)) ->
  (length (np.arange 5e-4 1e-2 (1 / Tobs)) <= length ds)%nat ->
  (compute_foreground psd_dat Tobs).2 = Raised ValueError
  /\ digits (compute_foreground psd_dat Tobs).1
     = Some (np.digitize (samples psd_dat).*1
               (np.arange 5e-4 1e-2 (1 / Tobs))).
Proof.
  intros HT HL Hnd Hsub Hlen.
  split; [|rewrite compute_foreground_frame by lra; reflexivity].
  rewrite compute_foreground_result by lra. cbv zeta.
  set (bins := np.arange 5e-4 1e-2 (1 / Tobs)) in *.
  set (power_sum :=
         pd.groupby_sum (np.digitize (samples psd_dat).*1 bins)
           (samples psd_dat).*2).
  assert (Hkeys : (zip (np.digitize (samples psd_dat).*1 bins)
                     (samples psd_dat).*2).*1
                  = np.digitize (samples psd_dat).*1 bins).
  { apply fst_zip. unfold np.digitize. rewrite !length_fmap. lia. }
  assert (Hcover : ds ⊆+ power_sum.*1).
  { apply NoDup_submseteq; [exact Hnd|]. intros k Hk.
    apply groupby_keys_cover. right. rewrite Hkeys. apply Hsub. exact Hk. }
  apply submseteq_length in Hcover. rewrite length_fmap in Hcover.
  assert (Hslice : np.slice_to power_sum.*1 (Z.of_nat (length bins) - 1)
                   = take (length bins - 1) power_sum.*1).
  { unfold np.slice_to. rewrite decide_False by lia. f_equal. lia. }
  rewrite Hslice. unfold np.put_broadcast.
  rewrite decide_False
    by (rewrite length_take, !length_fmap; lia).
  assert (Hvals : (2 <= length power_sum.*2)%nat)
    by (rewrite length_fmap; lia).
  destruct (power_sum.*2) as [|v [|v' vals]]; simpl in Hvals; try lia.
  reflexivity.
Qed.

Lemma foreground_crowded_raises_witness :
  (compute_foreground two_bin_frame 200).2 = Raised ValueError
  /\ digits (compute_foreground two_bin_frame 200).1
     = Some (np.digitize (samples two_bin_frame).*1
               (np.arange 5e-4 1e-2 (1 / 200))).
Proof.
  assert (Hd : np.digitize (samples two_bin_frame).*1
                 (np.arange 5e-4 1e-2 (1 / 200))
               = [1%nat; 2%nat]).
  { rewrite bins_200. unfold two_bin_frame, np.digitize. simpl.
    decide_numerals. reflexivity. }
  apply (foreground_crowded_raises two_bin_frame 200 [1%nat; 2%nat]).
  - lra.
  - rewrite bins_200. simpl. lia.
  - constructor; [|constructor; [intros H; inversion H | constructor]].
    intros H. apply list_elem_of_singleton in H. lia.
  - rewrite Hd. intros k Hk. exact Hk.
  - rewrite bins_200. simpl. lia.
Defined.

(** ** ForegroundBinner: calling again, and after [LISA_PSD] *)

(** Calling [compute_foreground] again on the frame it has written gives
    the same outcome and leaves the frame as the first call left it: the
    'digits' column is recomputed and overwritten, never read. *)
Theorem foreground_second_call (psd_dat : psd_frame) (Tobs : R) :
  compute_foreground (compute_foreground psd_dat Tobs).1 Tobs
  = compute_foreground psd_dat Tobs.
Proof.
  destruct (decide (Tobs = 0)) as [HT|HT].
  - assert (H0 : forall df, compute_foreground df Tobs
                            = (df, Raised ZeroDivisionError)).
    { intros df. unfold compute_foreground.
      rewrite decide_True by exact HT. reflexivity. }
    rewrite (H0 psd_dat). simpl. apply H0.
  - apply injective_projections.
    + rewrite !compute_foreground_frame by exact HT. reflexivity.
    + rewrite !compute_foreground_result by exact HT.
      rewrite compute_foreground_frame by exact HT. reflexivity.
Qed.

(** [LISA_PSD] followed by [compute_foreground]: for a catalog of circular
    sources, fewer than there are bins, the foreground spectrum is returned
    and its PSD column sums to h0^2 * (1/4) * Tobs over the sources whose
    gravitational-wave frequency 2/porb is at least 5e-4 Hz. *)
Theorem foreground_of_circular_catalog (jv : Z -> R -> R)
  (cat : list Binary) (N : Z) (Tobs : R) :
  0 < Tobs ->
  Forall (fun b => b_ecc b <= 0.1) cat ->
  (length cat + 1 <= length (np.arange 5e-4 1e-2 (1 / Tobs)))%nat ->
  exists psd_rows spectrum : list (R * R),
    LISA_PSD_catalog jv cat N Tobs = Returned psd_rows
    /\ (compute_foreground (mkFrame psd_rows None) Tobs).2
       = Returned spectrum
    /\ np.sum spectrum.*2
       = np.sum
           ((fun b =>
               if decide (5e-4 <= 2 / b_porb b)
               then h_0_of b ^ 2 * (1 / 4) * Tobs else 0) <$> cat).
Proof.
  intros HT Hcirc Hfew.
  eexists _, _. split; [apply LISA_PSD_circular_catalog; exact Hcirc|].
  split.
  - apply foreground_rows; [exact HT|]. simpl.
    rewrite length_fmap. exact Hfew.
  - rewrite snd_zip by (rewrite length_fmap, length_seq; lia).
    rewrite foreground_total by exact HT. unfold psd_where. simpl.
    rewrite <- list_fmap_compose. reflexivity.
Qed.

Lemma foreground_of_circular_catalog_witness :
  exists psd_rows spectrum : list (R * R),
    LISA_PSD_catalog jv_sample circular_pair 10 Tobs_4yr = Returned psd_rows
    /\ (compute_foreground (mkFrame psd_rows None) Tobs_4yr).2
       = Returned spectrum
    /\ np.sum spectrum.*2
       = np.sum
           ((fun b =>
               if decide (5e-4 <= 2 / b_porb b)
               then h_0_of b ^ 2 * (1 / 4) * Tobs_4yr else 0)
              <$> circular_pair).
Proof.
  apply (foreground_of_circular_catalog jv_sample circular_pair 10 Tobs_4yr).
  - apply Tobs_4yr_pos.
  - repeat constructor; simpl; lra.
  - pose proof bins_4yr_many. simpl. lia.
Defined.
